(** * Spritz (stream cipher and hash) : a shallow embedding of spritz.go

    The development follows the source file top-down:

    - Go's [int] is taken at its width on 64-bit targets: a two's-complement
      integer of 64 bits, kept as a [Z] with the wrap-around of every
      addition, subtraction and multiplication written out; [%] and [/]
      truncate towards zero and panic on a zero divisor.
    - A run-time panic (index out of range, division by zero, a length
      given to [make] that is negative or beyond what the runtime allocates
      at once, nil dereference) is an outcome of its own, and it carries the
      memory as the panic found it. A request that [make] accepts is
      served: the machine is taken to have the memory.
    - [struct state] holds a slice header [s] besides its integer fields. A
      slice header is a reference: copying the struct copies the reference,
      not the backing array. The memory therefore has two parts, the
      [state] structs reached through [*state] pointers and the backing
      arrays reached through slice headers.
    - The methods of [*state] other than [initialize] never assign the
      field [s.s]; they read and write the fields of the receiver and the
      elements of the backing array of [s.s], and nothing else. Each of them
      is a computation over the pair of the receiver struct and the contents
      of that backing array; [call] and [on_local] run such a computation
      against the memory, where the writes to the array land in the
      backing array that the slice header refers to. *)

From Stdlib Require Import ZArith Lia.
From Stdlib.Strings Require Import Byte.
From Stdlib Require Import Zdivisibility.
From stdpp Require Import base list numbers.
Local Open Scope Z_scope.

(** ** Outcomes and the state-and-panic monad *)

Inductive result (S A : Type) : Type :=
| Ok (x : A) (σ : S)
| Panic (σ : S).
Arguments Ok {S A} x σ.
Arguments Panic {S A} σ.

Definition M (S A : Type) : Type := S → result S A.

Definition ret {S A} (x : A) : M S A := λ σ, Ok x σ.

Definition bind {S A B} (m : M S A) (f : A → M S B) : M S B :=
  λ σ, match m σ with
       | Ok x σ' => f x σ'
       | Panic σ' => Panic σ'
       end.

Definition panic {S A} : M S A := λ σ, Panic σ.

Declare Scope go_scope.
Delimit Scope go_scope with go.
Notation "x <- m ;; k" := (bind m (λ x, k))
  (at level 100, m at next level, k at level 200, right associativity) : go_scope.
Notation "m ;; k" := (bind m (λ _, k))
  (at level 100, k at level 200, right associativity) : go_scope.
Local Open Scope go_scope.

(** The memory an outcome ends in, whether by return or by panic. *)
Definition final {S A} (r : result S A) : S :=
  match r with Ok _ σ => σ | Panic σ => σ end.

Definition returns {S A} (r : result S A) : option A :=
  match r with Ok x _ => Some x | Panic _ => None end.

(** [for _, v := range l { body v }] *)
Fixpoint forM_ {S A} (l : list A) (body : A → M S unit) : M S unit :=
  match l with
  | [] => ret tt
  | x :: l' => body x ;; forM_ l' body
  end.

(** [for i := range l { l[i] = body l[i] }], returning the new contents. *)
Fixpoint mapM {S A B} (body : A → M S B) (l : list A) : M S (list B) :=
  match l with
  | [] => ret []
  | x :: l' => y <- body x ;; ys <- mapM body l' ;; ret (y :: ys)
  end.

(** [for i := 0; i < hi; i++ { body i }], for a body that leaves [hi] alone. *)
Definition for_to {S} (hi : Z) (body : Z → M S unit) : M S unit :=
  forM_ (seqZ 0 hi) body.

(** ** Go's int *)

Definition wrap (x : Z) : Z := (x + 2 ^ 63) `mod` 2 ^ 64 - 2 ^ 63.

Definition int_add (x y : Z) : Z := wrap (x + y).
Definition int_sub (x y : Z) : Z := wrap (x - y).
Definition int_mul (x y : Z) : Z := wrap (x * y).

(** Expressions read the state, so the operators are lifted to computations;
    the operands are evaluated left to right. *)
Definition lift2 {S A} (f : Z → Z → A) (e1 e2 : M S Z) : M S A :=
  x <- e1 ;; y <- e2 ;; ret (f x y).

Definition int_rem {S} (e1 e2 : M S Z) : M S Z :=
  x <- e1 ;; y <- e2 ;; if y =? 0 then panic else ret (Z.rem x y).

Definition int_quo {S} (e1 e2 : M S Z) : M S Z :=
  x <- e1 ;; y <- e2 ;; if y =? 0 then panic else ret (wrap (Z.quot x y)).

Notation "e1 +ᵢ e2" := (lift2 int_add e1 e2) (at level 50, left associativity) : go_scope.
Notation "e1 -ᵢ e2" := (lift2 int_sub e1 e2) (at level 50, left associativity) : go_scope.
Notation "e1 *ᵢ e2" := (lift2 int_mul e1 e2) (at level 40, left associativity) : go_scope.
Notation "e1 %ᵢ e2" := (int_rem e1 e2) (at level 40, left associativity) : go_scope.
Notation "e1 /ᵢ e2" := (int_quo e1 e2) (at level 40, left associativity) : go_scope.
Notation "e1 ==ᵢ e2" := (lift2 Z.eqb e1 e2) (at level 70, no associativity) : go_scope.
Notation "e1 >ᵢ e2" := (lift2 Z.gtb e1 e2) (at level 70, no associativity) : go_scope.

(** [if c { body }] *)
Definition when {S} (c : M S bool) (body : M S unit) : M S unit :=
  b <- c ;; if b then body else ret tt.

(** The most that the runtime allocates at once, in bytes, on the 64-bit
    targets with 48 address bits (amd64, arm64): [maxAlloc] of the Go
    runtime. *)
Definition maxAlloc : Z := 2 ^ 48.

(** [makeslice] refuses a length of ints: it is negative, or the request
    passes [maxAlloc] bytes, an int taking 8 of them. *)
Definition refused (len : Z) : bool := (len <? 0) || (maxAlloc <? 8 * len).

(** [make([]int, len)] as a value: a refused length panics (makeslice: len
    out of range), any other request is served. *)
Definition make_ints {S} (len : Z) : M S (list Z) :=
  if refused len then panic else ret (replicate (Z.to_nat len) 0).

(** ** Bytes *)

(** [int(v)] for a byte [v]. *)
Definition int_of_byte (v : byte) : Z := Z.of_N (Byte.to_N v).

(** [byte(v)] for an int [v]: the low eight bits. *)
Definition byte_of_int (v : Z) : byte :=
  match Byte.of_N (Z.to_N (v `mod` 256)) with
  | Some b => b
  | None => x00
  end.

(** [v ^ b] on bytes. *)
Definition byte_xor (v b : byte) : byte :=
  byte_of_int (Z.lxor (int_of_byte v) (int_of_byte b)).

(** ** struct state *)

(** A slice header: nil, or the address of a backing array. The program
    never reslices, so length and capacity are those of the array. *)
Definition slice : Type := option nat.

Record state : Type := mkState {
  n : Z;
  s : slice;
  a : Z; i : Z; j : Z; k : Z; w : Z; z : Z
}.

(** [var s state] *)
Definition zero_state : state := mkState 0 None 0 0 0 0 0 0.

Definition with_s (v : slice) (st : state) : state :=
  mkState st.(n) v st.(a) st.(i) st.(j) st.(k) st.(w) st.(z).
Definition with_a (v : Z) (st : state) : state :=
  mkState st.(n) st.(s) v st.(i) st.(j) st.(k) st.(w) st.(z).
Definition with_i (v : Z) (st : state) : state :=
  mkState st.(n) st.(s) st.(a) v st.(j) st.(k) st.(w) st.(z).
Definition with_j (v : Z) (st : state) : state :=
  mkState st.(n) st.(s) st.(a) st.(i) v st.(k) st.(w) st.(z).
Definition with_k (v : Z) (st : state) : state :=
  mkState st.(n) st.(s) st.(a) st.(i) st.(j) v st.(w) st.(z).
Definition with_w (v : Z) (st : state) : state :=
  mkState st.(n) st.(s) st.(a) st.(i) st.(j) st.(k) v st.(z).
Definition with_z (v : Z) (st : state) : state :=
  mkState st.(n) st.(s) st.(a) st.(i) st.(j) st.(k) st.(w) v.

(** ** Method bodies: the receiver struct and the backing array of s.s *)

Definition method (A : Type) : Type := M (state * list Z) A.

Definition field (f : state → Z) : method Z := λ σ, Ok (f σ.1) σ.
Definition assign (f : Z → state → state) (e : method Z) : method unit :=
  v <- e ;; λ σ, Ok tt (f v σ.1, σ.2).

(** [s.n], [s.a], ... as expressions *)
Definition s_n : method Z := field n.
Definition s_a : method Z := field a.
Definition s_i : method Z := field i.
Definition s_j : method Z := field j.
Definition s_k : method Z := field k.
Definition s_w : method Z := field w.
Definition s_z : method Z := field z.

(** [s.a = e], ... *)
Definition set_a : method Z → method unit := assign with_a.
Definition set_i : method Z → method unit := assign with_i.
Definition set_j : method Z → method unit := assign with_j.
Definition set_k : method Z → method unit := assign with_k.
Definition set_w : method Z → method unit := assign with_w.
Definition set_z : method Z → method unit := assign with_z.

(** [len(s.s)] *)
Definition len_s : method Z := λ σ, Ok (Z.of_nat (length σ.2)) σ.

(** [s.s[e]]: the index is checked against the bounds. *)
Definition s_at (e : method Z) : method Z :=
  ix <- e ;;
  λ σ, if (0 <=? ix) && (ix <? Z.of_nat (length σ.2))
       then Ok (σ.2 !!! Z.to_nat ix) σ
       else Panic σ.

(** [s.s[e1] = e2]: both sides are evaluated, then the store is checked. *)
Definition set_at (e1 e2 : method Z) : method unit :=
  ix <- e1 ;; v <- e2 ;;
  λ σ, if (0 <=? ix) && (ix <? Z.of_nat (length σ.2))
       then Ok tt (σ.1, <[Z.to_nat ix := v]> σ.2)
       else Panic σ.

(** The loop of [initialize]: [for i := range s.s { s.s[i] = i }]. *)
Definition fill_identity : method unit :=
  len <- len_s ;;
  for_to len (λ ix, set_at (ret ix) (ret ix)).

Definition update : method unit :=
  set_i ((s_i +ᵢ s_w) %ᵢ s_n) ;;
  y <- (s_j +ᵢ s_at s_i) %ᵢ s_n ;;
  set_j ((s_k +ᵢ s_at (ret y)) %ᵢ s_n) ;;
  set_k ((s_i +ᵢ s_k +ᵢ s_at s_j) %ᵢ s_n) ;;
  t <- s_at s_i ;;
  set_at s_i (s_at s_j) ;;
  set_at s_j (ret t).

Definition output : method Z :=
  y1 <- (s_z +ᵢ s_k) %ᵢ s_n ;;
  x1 <- (s_i +ᵢ s_at (ret y1)) %ᵢ s_n ;;
  y2 <- (s_j +ᵢ s_at (ret x1)) %ᵢ s_n ;;
  set_z (s_at (ret y2)) ;;
  s_z.

(** The bound [s.n/2] is written in the loop condition; the body does not
    assign [s.n], so it is read once. *)
Definition crush : method unit :=
  hi <- s_n /ᵢ ret 2 ;;
  for_to hi (λ ix,
    y <- (s_n -ᵢ ret 1) -ᵢ ret ix ;;
    x1 <- s_at (ret ix) ;;
    x2 <- s_at (ret y) ;;
    if x1 >? x2 then
      set_at (ret ix) (ret x2) ;;
      set_at (ret y) (ret x1)
    else
      set_at (ret ix) (ret x1) ;;
      set_at (ret y) (ret x2)).

Definition whip : method unit :=
  r <- s_n *ᵢ ret 2 ;;
  for_to r (λ _, update) ;;
  set_w ((s_w +ᵢ ret 2) %ᵢ s_n).

Definition shuffle : method unit :=
  whip ;;
  crush ;;
  whip ;;
  crush ;;
  whip ;;
  set_a (ret 0).

Definition absorbStop : method unit :=
  when (s_a ==ᵢ s_n /ᵢ ret 2) shuffle ;;
  set_a ((s_a +ᵢ ret 1) %ᵢ s_n).

Definition absorbNibble (x : Z) : method unit :=
  when (s_a ==ᵢ s_n /ᵢ ret 2) shuffle ;;
  y <- (s_n /ᵢ ret 2 +ᵢ ret x) %ᵢ s_n ;;
  t <- s_at s_a ;;
  set_at s_a (s_at (ret y)) ;;
  set_at (ret y) (ret t) ;;
  set_a ((s_a +ᵢ ret 1) %ᵢ s_n).

Definition absorbValue (b : Z) : method unit :=
  d <- s_n /ᵢ ret 16 ;;
  lo <- ret b %ᵢ ret d ;;
  absorbNibble lo ;;
  hi <- ret b /ᵢ ret d ;;
  absorbNibble hi.

Definition absorb (msg : list Z) : method unit :=
  forM_ msg absorbValue.

Definition drip : method Z :=
  when (s_a >ᵢ ret 0) shuffle ;;
  update ;;
  output.

(** [out] is the caller's buffer; its new contents are returned. *)
Definition squeeze (out : list Z) : method (list Z) :=
  when (s_a >ᵢ ret 0) shuffle ;;
  mapM (λ _, drip) out.

Definition keySetup (key : list Z) : method unit :=
  absorb key ;;
  when (s_a >ᵢ ret 0) shuffle.

(** ** The memory: structs behind pointers, arrays behind slice headers *)

Definition ptr : Type := nat.

Record mem : Type := mkMem {
  structs : list state;
  arrays : list (list Z)
}.

Definition empty_mem : mem := mkMem [] [].

(** The contents of the backing array of a slice header (nil has none). *)
Definition backing (μ : mem) (sl : slice) : list Z :=
  match sl with
  | Some l => default [] (μ.(arrays) !! l)
  | None => []
  end.

Definition write_back (sl : slice) (arr : list Z) (h : list (list Z)) : list (list Z) :=
  match sl with
  | Some l => <[l := arr]> h
  | None => h
  end.

(** [var s state], with its address taken. *)
Definition new_state : M mem ptr :=
  λ μ, Ok (length μ.(structs)) (mkMem (μ.(structs) ++ [zero_state]) μ.(arrays)).

(** [make([]int, len)] as a fresh backing array. *)
Definition make_slice (len : Z) : M mem slice :=
  λ μ, if refused len then Panic μ
       else Ok (Some (length μ.(arrays)))
               (mkMem μ.(structs) (μ.(arrays) ++ [replicate (Z.to_nat len) 0])).

(** [*p] *)
Definition load (p : ptr) : M mem state :=
  λ μ, match μ.(structs) !! p with
       | Some st => Ok st μ
       | None => Panic μ
       end.

(** [*p = st] *)
Definition store (p : ptr) (st : state) : M mem unit :=
  λ μ, match μ.(structs) !! p with
       | Some _ => Ok tt (mkMem (<[p := st]> μ.(structs)) μ.(arrays))
       | None => Panic μ
       end.

(** [p.m()] for a method [m] of [*state]: the struct at [p] and the backing
    array of its slice header are what the body works on. *)
Definition call {A} (p : ptr) (m : method A) : M mem A :=
  λ μ, match μ.(structs) !! p with
       | None => Panic μ
       | Some st =>
           let commit (σ : state * list Z) :=
             mkMem (<[p := σ.1]> μ.(structs)) (write_back st.(s) σ.2 μ.(arrays)) in
           match m (st, backing μ st.(s)) with
           | Ok x σ' => Ok x (commit σ')
           | Panic σ' => Panic (commit σ')
           end
       end.

(** [s.m()] for a local variable [s] of type [state]: the struct is the
    caller's own, the backing array is whatever its slice header refers to. *)
Definition on_local {A} (st : state) (m : method A) : M mem A :=
  λ μ, let commit (σ : state * list Z) :=
         mkMem μ.(structs) (write_back st.(s) σ.2 μ.(arrays)) in
       match m (st, backing μ st.(s)) with
       | Ok x σ' => Ok x (commit σ')
       | Panic σ' => Panic (commit σ')
       end.

(** The parameter is not used by the body. *)
Definition initialize (p : ptr) (n_ : Z) : M mem unit :=
  sl <- make_slice 256 ;;
  store p (mkState 256 sl 0 0 0 0 1 0) ;;
  call p fill_identity.

(** ** The two wrappers *)

Module stream.
Record t : Type := mk { s : ptr }.
End stream.

Module digest.
Record t : Type := mk { size : Z; s : ptr }.
End digest.

(** The [error] results of this package are always nil. *)
Inductive error : Type := .

Definition NewStream (key : list byte) : M mem stream.t :=
  p <- new_state ;;
  initialize p 256 ;;
  let k := int_of_byte <$> key in
  call p (keySetup k) ;;
  ret (stream.mk p).

Definition Reset (d : digest.t) : M mem unit :=
  initialize d.(digest.s) 256.

Definition NewHash (size : Z) : M mem digest.t :=
  p <- new_state ;;
  let d := digest.mk size p in
  Reset d ;;
  ret d.

(** [dst[i] = v ^ byte(s.s.drip())] over [src] from position [ix] on. *)
Fixpoint xor_from (c : stream.t) (ix : nat) (src dst : list byte) : M mem (list byte) :=
  match src with
  | [] => ret dst
  | v :: src' =>
      x <- call c.(stream.s) drip ;;
      (if decide (ix < length dst)%nat
       then xor_from c (S ix) src' (<[ix := byte_xor v (byte_of_int x)]> dst)
       else panic)
  end.

(** The new contents of [dst] are returned. *)
Definition XORKeyStream (c : stream.t) (dst src : list byte) : M mem (list byte) :=
  xor_from c 0 src dst.

Definition Sum (d : digest.t) (b : list byte) : M mem (list byte) :=
  s <- load d.(digest.s) ;;
  out <- on_local s (
    absorbStop ;;
    absorb [d.(digest.size)] ;;
    out <- make_ints d.(digest.size) ;;
    squeeze out) ;;
  let h := byte_of_int <$> out in
  ret (b ++ h).

Definition Write (d : digest.t) (p : list byte) : M mem (Z * option error) :=
  let msg := int_of_byte <$> p in
  call d.(digest.s) (absorb msg) ;;
  ret (Z.of_nat (length p), None).

Definition Size (d : digest.t) : Z := d.(digest.size).

Definition BlockSize (d : digest.t) : Z := 1.

(** * The vocabulary of the properties *)

(** An expression evaluates to [v] in [σ] and leaves [σ] as it is. *)
Definition evals {S A} (e : M S A) (σ : S) (v : A) : Prop := e σ = Ok v σ.

(** What the text asks of a state of size [n]: every register and every
    array entry is an index into the array. *)
Record sized (σ : state * list Z) : Prop := {
  sized_n : 0 < σ.1.(n) < 2 ^ 60;
  sized_len : Z.of_nat (length σ.2) = σ.1.(n);
  sized_entries : ∀ ix v, σ.2 !! ix = Some v → 0 ≤ v < σ.1.(n);
  sized_a : 0 ≤ σ.1.(a) < σ.1.(n);
  sized_i : 0 ≤ σ.1.(i) < σ.1.(n);
  sized_j : 0 ≤ σ.1.(j) < σ.1.(n);
  sized_k : 0 ≤ σ.1.(k) < σ.1.(n);
  sized_w : 0 ≤ σ.1.(w) < σ.1.(n);
  sized_z : 0 ≤ σ.1.(z) < σ.1.(n)
}.

(** The round as the specification words it, on registers and array. *)
Definition update_round (σ : state * list Z) : state * list Z :=
  let '(st, arr) := σ in
  let i1 := (st.(i) + st.(w)) `mod` st.(n) in
  let y := (st.(j) + arr !!! Z.to_nat i1) `mod` st.(n) in
  let j1 := (st.(k) + arr !!! Z.to_nat y) `mod` st.(n) in
  let k1 := (i1 + st.(k) + arr !!! Z.to_nat j1) `mod` st.(n) in
  (with_k k1 (with_j j1 (with_i i1 st)),
   <[Z.to_nat j1 := arr !!! Z.to_nat i1]> (<[Z.to_nat i1 := arr !!! Z.to_nat j1]> arr)).

(** From a state in [P], [m] returns a value and a state in [Q], or panics
    in a state in [R]. *)
Definition triple {S A} (P : S → Prop) (m : M S A)
    (Q : A → S → Prop) (R : S → Prop) : Prop :=
  ∀ σ, P σ → match m σ with Ok x σ' => Q x σ' | Panic σ' => R σ' end.

(** A state of size 256 in order, with slice header [sl]: the array is a
    permutation of 0..255 and the registers are indices. *)
Record good (sl : slice) (σ : state * list Z) : Prop := {
  good_s : σ.1.(s) = sl;
  good_n : σ.1.(n) = 256;
  good_perm : σ.2 ≡ₚ seqZ 0 256;
  good_a : 0 ≤ σ.1.(a) < 256;
  good_i : 0 ≤ σ.1.(i) < 256;
  good_j : 0 ≤ σ.1.(j) < 256;
  good_k : 0 ≤ σ.1.(k) < 256;
  good_w : 0 ≤ σ.1.(w) < 256;
  good_z : 0 ≤ σ.1.(z) < 256
}.

(** The position the nibble [x] is swapped to is [(s.n/2 + x) % s.n]; Go's
    [%] keeps the sign of the dividend, so the position is an index only
    for [x] that are not too negative. *)
Definition nibble_slot (x : Z) : Z := Z.rem (int_add 128 x) 256.

(** An int that [absorbValue] takes without a panic. *)
Definition absorbable (b : Z) : Prop := 0 ≤ nibble_slot (wrap (Z.quot b 16)).

(** An outcome with the slice header of its state replaced. *)
Definition reheader {A} (sl : slice) (r : result (state * list Z) A) :
    result (state * list Z) A :=
  match r with
  | Ok x σ => Ok x (with_s sl σ.1, σ.2)
  | Panic σ => Panic (with_s sl σ.1, σ.2)
  end.

(** A method body that neither reads nor assigns the slice header. *)
Definition header_blind {A} (m : method A) : Prop :=
  ∀ sl st arr, m (with_s sl st, arr) = reheader sl (m (st, arr)).

(** A struct is in order when its slice header refers to an array holding a
    permutation of 0..255 and its registers are indices. *)
Definition struct_ok (h : list (list Z)) (st : state) : Prop :=
  ∃ l arr, st.(s) = Some l ∧ h !! l = Some arr ∧ good (Some l) (st, arr).

(** Every struct of the memory is in order. *)
Definition mem_inv (μ : mem) : Prop :=
  ∀ p st, μ.(structs) !! p = Some st → struct_ok μ.(arrays) st.

(** The same, but for the struct at [q], which may still be zero-valued. *)
Definition mem_inv_but (q : ptr) (μ : mem) : Prop :=
  ∀ p st, p ≠ q → μ.(structs) !! p = Some st → struct_ok μ.(arrays) st.

(** The struct that initialize leaves, its array at address [l]. *)
Definition init_state (l : nat) : state := mkState 256 (Some l) 0 0 0 0 1 0.

(** The key schedule on a fresh state; the header is immaterial. *)
Definition key_schedule (key : list byte) : result (state * list Z) unit :=
  keySetup (int_of_byte <$> key) (init_state 0, seqZ 0 256).

(** A call of the public interface. The handles are whatever the client
    passes; those obtained from the constructors are among them. *)
Inductive api_call : Type :=
| CallNewStream (key : list byte)
| CallNewHash (size : Z)
| CallXORKeyStream (c : stream.t) (dst src : list byte)
| CallSum (d : digest.t) (b : list byte)
| CallWrite (d : digest.t) (p : list byte)
| CallReset (d : digest.t).

(** The memory a call leaves, by return or by panic. *)
Definition exec (c : api_call) (μ : mem) : mem :=
  match c with
  | CallNewStream key => final (NewStream key μ)
  | CallNewHash size => final (NewHash size μ)
  | CallXORKeyStream c dst src => final (XORKeyStream c dst src μ)
  | CallSum d b => final (Sum d b μ)
  | CallWrite d p => final (Write d p μ)
  | CallReset d => final (Reset d μ)
  end.

(** The memory after a sequence of calls, from the empty memory. *)
Definition run (calls : list api_call) : mem :=
  foldl (λ μ c, exec c μ) empty_mem calls.

(** Writing chunk after chunk. *)
Definition write_chunks (d : digest.t) (chunks : list (list byte)) : M mem unit :=
  forM_ chunks (λ p, Write d p ;; ret tt).

(** The loop of XORKeyStream as one method body on the state behind the
    handle. *)
Fixpoint xor_body (ix : nat) (src dst : list byte) : method (list byte) :=
  match src with
  | [] => ret dst
  | v :: src' =>
      x <- drip ;;
      (if decide (ix < length dst)%nat
       then xor_body (S ix) src' (<[ix := byte_xor v (byte_of_int x)]> dst)
       else panic)
  end.

(** The struct behind [p] is in order. *)
Definition live (μ : mem) (p : ptr) : Prop :=
  ∃ st, μ.(structs) !! p = Some st ∧ struct_ok μ.(arrays) st.

(** The raw keystream: the transform of m zero bytes. *)
Definition keystream (c : stream.t) (m : nat) : M mem (list byte) :=
  XORKeyStream c (replicate m x00) (replicate m x00).

(** The digest of [msg] by a fresh accumulator of the given size,
    constructed in the memory [μ]. *)
Definition digest_of (μ : mem) (size : Z) (msg : list byte) : option (list byte) :=
  returns ((d <- NewHash size ;; Write d msg ;; Sum d []) μ).

(** What the loop of XORKeyStream leaves in [dst], from position [ix] on,
    given the values [ks] that the calls of drip return. *)
Fixpoint xor_into (ix : nat) (src : list byte) (ks : list Z) (dst : list byte) : list byte :=
  match src, ks with
  | v :: src', x :: ks' =>
      xor_into (S ix) src' ks' (<[ix := byte_xor v (byte_of_int x)]> dst)
  | _, _ => dst
  end.

(** The memory with the registers [σ.1] behind [p] and the contents [σ.2]
    in the array at [l]. *)
Definition put_view (p : ptr) (l : nat) (σ : state * list Z) (μ : mem) : mem :=
  mkMem (<[p := with_s (Some l) σ.1]> μ.(structs)) (<[l := σ.2]> μ.(arrays)).

(** Behind [p] are the registers [σ.1], their slice header refers to the
    array at [l], whose contents are [σ.2], and the two are in order. *)
Definition holds (μ : mem) (p : ptr) (l : nat) (σ : state * list Z) : Prop :=
  μ.(structs) !! p = Some (with_s (Some l) σ.1) ∧ μ.(arrays) !! l = Some σ.2 ∧
  good None σ.

(** What Sum runs on its copy of the struct. *)
Definition sum_body (size : Z) : method (list Z) :=
  absorbStop ;; absorb [size] ;; out <- make_ints size ;; squeeze out.

(** A predicate on the registers that [m] keeps, at returns and at panics. *)
Definition stable (J : state → Prop) {A} (m : method A) : Prop :=
  triple (λ σ, J σ.1) m (λ _ σ, J σ.1) (λ σ, J σ.1).

(** Registers whose n is even and whose w is odd. *)
Definition w_odd (st : state) : Prop := Z.even st.(n) = true ∧ Z.odd st.(w) = true.

(** Registers of size 256 whose a is at most 128. *)
Definition a_bounded (st : state) : Prop := st.(n) = 256 ∧ 0 ≤ st.(a) ≤ 128.

(** Every struct of the memory satisfies [J]. *)
Definition mem_all (J : state → Prop) (μ : mem) : Prop :=
  ∀ p st, μ.(structs) !! p = Some st → J st.

(** The array after the first [m] steps of crush on [arr], of length [len]:
    among the pairs of positions ix and len-1-ix with ix < m, the smaller
    value is at ix and the larger at len-1-ix; the others are as in [arr]. *)
Definition crushed_to (m len : Z) (arr arr' : list Z) : Prop :=
  length arr' = length arr ∧
  ∀ ix, 0 ≤ ix < len `div` 2 →
    if decide (ix < m)
    then arr' !!! Z.to_nat ix = Z.min (arr !!! Z.to_nat ix) (arr !!! Z.to_nat (len - 1 - ix)) ∧
         arr' !!! Z.to_nat (len - 1 - ix)
           = Z.max (arr !!! Z.to_nat ix) (arr !!! Z.to_nat (len - 1 - ix))
    else arr' !!! Z.to_nat ix = arr !!! Z.to_nat ix ∧
         arr' !!! Z.to_nat (len - 1 - ix) = arr !!! Z.to_nat (len - 1 - ix).

(** [t := s[p]; s[p] = s[q]; s[q] = t] on the contents of the array. *)
Definition swap_at (p q : Z) (arr : list Z) : list Z :=
  <[Z.to_nat q := arr !!! Z.to_nat p]> (<[Z.to_nat p := arr !!! Z.to_nat q]> arr).

(** Registers with the given w and z. *)
Definition has_wz (w0 z0 : Z) (st : state) : Prop := st.(w) = w0 ∧ st.(z) = z0.

(** * Properties *)

(** ** Arithmetic that stays within int *)

Lemma wrap_small (x : Z) : - 2 ^ 63 ≤ x < 2 ^ 63 → wrap x = x.
Proof. intros Hx. unfold wrap. rewrite Z.mod_small; lia. Qed.

Lemma int_add_small (x y : Z) : - 2 ^ 63 ≤ x + y < 2 ^ 63 → int_add x y = x + y.
Proof. apply wrap_small. Qed.

Lemma int_sub_small (x y : Z) : - 2 ^ 63 ≤ x - y < 2 ^ 63 → int_sub x y = x - y.
Proof. apply wrap_small. Qed.

Lemma int_mul_small (x y : Z) : - 2 ^ 63 ≤ x * y < 2 ^ 63 → int_mul x y = x * y.
Proof. apply wrap_small. Qed.

(** ** The lengths that make accepts *)

Lemma refused_true (len : Z) : refused len = true ↔ len < 0 ∨ maxAlloc < 8 * len.
Proof. unfold refused. rewrite orb_true_iff, !Z.ltb_lt. tauto. Qed.

Lemma refused_false (len : Z) : refused len = false ↔ 0 ≤ len ∧ 8 * len ≤ maxAlloc.
Proof. unfold refused. rewrite orb_false_iff, !Z.ltb_ge. tauto. Qed.

Lemma make_ints_ok {S} (len : Z) (σ : S) :
  0 ≤ len → 8 * len ≤ maxAlloc → make_ints len σ = Ok (replicate (Z.to_nat len) 0) σ.
Proof.
  intros H1 H2. unfold make_ints. by rewrite (proj2 (refused_false len) (conj H1 H2)).
Qed.

Lemma make_ints_refused {S} (len : Z) (σ : S) :
  len < 0 ∨ maxAlloc < 8 * len → make_ints len σ = Panic σ.
Proof. intros H. unfold make_ints. by rewrite (proj2 (refused_true len) H). Qed.

(** ** Evaluating expressions *)

Section Evals.
Context {S : Type}.
Implicit Types σ : S.

Lemma evals_ret {A} (v : A) σ : evals (ret v) σ v.
Proof. reflexivity. Qed.

Lemma bind_evals {A B} (e : M S A) (f : A → M S B) σ v :
  evals e σ v → bind e f σ = f v σ.
Proof. unfold evals, bind. by intros ->. Qed.

Lemma bind_ok {A B} (m : M S A) (f : A → M S B) σ v σ' :
  m σ = Ok v σ' → bind m f σ = f v σ'.
Proof. unfold bind. by intros ->. Qed.

Lemma bind_panic {A B} (m : M S A) (f : A → M S B) σ σ' :
  m σ = Panic σ' → bind m f σ = Panic σ'.
Proof. unfold bind. by intros ->. Qed.

Lemma evals_lift2 {A} (f : Z → Z → A) (e1 e2 : M S Z) σ x y :
  evals e1 σ x → evals e2 σ y → evals (lift2 f e1 e2) σ (f x y).
Proof.
  intros H1 H2. unfold evals, lift2.
  by rewrite (bind_evals _ _ _ _ H1), (bind_evals _ _ _ _ H2).
Qed.

Lemma evals_rem (e1 e2 : M S Z) σ x y :
  evals e1 σ x → evals e2 σ y → y ≠ 0 → evals (e1 %ᵢ e2) σ (Z.rem x y).
Proof.
  intros H1 H2 Hy. unfold evals, int_rem.
  rewrite (bind_evals _ _ _ _ H1), (bind_evals _ _ _ _ H2).
  by destruct (Z.eqb_spec y 0).
Qed.

Lemma evals_quo (e1 e2 : M S Z) σ x y :
  evals e1 σ x → evals e2 σ y → y ≠ 0 → evals (e1 /ᵢ e2) σ (wrap (Z.quot x y)).
Proof.
  intros H1 H2 Hy. unfold evals, int_quo.
  rewrite (bind_evals _ _ _ _ H1), (bind_evals _ _ _ _ H2).
  by destruct (Z.eqb_spec y 0).
Qed.
End Evals.

Lemma evals_field (f : state → Z) σ : evals (field f) σ (f σ.1).
Proof. reflexivity. Qed.

Lemma evals_s_at (e : method Z) σ ix :
  evals e σ ix → 0 ≤ ix < Z.of_nat (length σ.2) →
  evals (s_at e) σ (σ.2 !!! Z.to_nat ix).
Proof.
  intros He Hix. unfold evals, s_at. rewrite (bind_evals _ _ _ _ He).
  destruct (Z.leb_spec 0 ix), (Z.ltb_spec ix (Z.of_nat (length σ.2))); simpl; done || lia.
Qed.

Lemma assign_ok (f : Z → state → state) (e : method Z) σ v :
  evals e σ v → assign f e σ = Ok tt (f v σ.1, σ.2).
Proof. intros He. unfold assign. by rewrite (bind_evals _ _ _ _ He). Qed.

Lemma set_at_ok (e1 e2 : method Z) σ ix v :
  evals e1 σ ix → evals e2 σ v → 0 ≤ ix < Z.of_nat (length σ.2) →
  set_at e1 e2 σ = Ok tt (σ.1, <[Z.to_nat ix := v]> σ.2).
Proof.
  intros H1 H2 Hix. unfold set_at.
  rewrite (bind_evals _ _ _ _ H1), (bind_evals _ _ _ _ H2).
  destruct (Z.leb_spec 0 ix), (Z.ltb_spec ix (Z.of_nat (length σ.2))); simpl; done || lia.
Qed.

(** ** One round of update *)

Lemma sized_lookup σ (ix : Z) :
  sized σ → 0 ≤ ix < σ.1.(n) → 0 ≤ σ.2 !!! Z.to_nat ix < σ.1.(n).
Proof.
  intros Hσ Hix. destruct (lookup_lt_is_Some_2 σ.2 (Z.to_nat ix)) as [v Hv].
  { pose proof (sized_len _ Hσ). lia. }
  rewrite (list_lookup_total_correct _ _ _ Hv). eapply sized_entries; eauto.
Qed.

Lemma update_ok σ : sized σ → update σ = Ok tt (update_round σ).
Proof.
  intros Hσ. destruct σ as [st arr].
  pose proof (sized_n _ Hσ) as Hn. pose proof (sized_len _ Hσ) as Hlen.
  pose proof (sized_i _ Hσ) as Hi. pose proof (sized_j _ Hσ) as Hj.
  pose proof (sized_k _ Hσ) as Hk. pose proof (sized_w _ Hσ) as Hw.
  simpl in *.
  set (i1 := (st.(i) + st.(w)) `mod` st.(n)).
  assert (Hi1 : 0 ≤ i1 < st.(n)) by (apply Z.mod_pos_bound; lia).
  pose proof (sized_lookup _ i1 Hσ Hi1) as Hsi. simpl in Hsi.
  set (y := (st.(j) + arr !!! Z.to_nat i1) `mod` st.(n)).
  assert (Hy : 0 ≤ y < st.(n)) by (apply Z.mod_pos_bound; lia).
  pose proof (sized_lookup _ y Hσ Hy) as Hsy. simpl in Hsy.
  set (j1 := (st.(k) + arr !!! Z.to_nat y) `mod` st.(n)).
  assert (Hj1 : 0 ≤ j1 < st.(n)) by (apply Z.mod_pos_bound; lia).
  pose proof (sized_lookup _ j1 Hσ Hj1) as Hsj. simpl in Hsj.
  unfold update, set_i, set_j, set_k.
  erewrite bind_ok; cycle 1.
  { apply assign_ok. apply evals_rem; [|apply evals_field|simpl; lia].
    apply evals_lift2; apply evals_field. }
  simpl. rewrite int_add_small, Z.rem_mod_nonneg by lia. fold i1.
  erewrite bind_evals; cycle 1.
  { apply evals_rem; [|apply evals_field|simpl; lia].
    apply evals_lift2; [apply evals_field|].
    apply evals_s_at; [apply evals_field|simpl; lia]. }
  simpl. rewrite int_add_small, Z.rem_mod_nonneg by lia. fold y.
  erewrite bind_ok; cycle 1.
  { apply assign_ok. apply evals_rem; [|apply evals_field|simpl; lia].
    apply evals_lift2; [apply evals_field|].
    apply evals_s_at; [apply evals_ret|simpl; lia]. }
  simpl. rewrite int_add_small, Z.rem_mod_nonneg by lia. fold j1.
  erewrite bind_ok; cycle 1.
  { apply assign_ok. apply evals_rem; [|apply evals_field|simpl; lia].
    apply evals_lift2; [apply evals_lift2; apply evals_field|].
    apply evals_s_at; [apply evals_field|simpl; lia]. }
  simpl. rewrite !int_add_small, Z.rem_mod_nonneg by (rewrite ?int_add_small; lia).
  erewrite bind_evals; cycle 1.
  { apply evals_s_at; [apply evals_field|simpl; lia]. }
  simpl.
  erewrite bind_ok; cycle 1.
  { eapply set_at_ok; [apply evals_field| |simpl; lia].
    apply evals_s_at; [apply evals_field|simpl; lia]. }
  simpl.
  erewrite set_at_ok; [|apply evals_field|apply evals_ret|simpl; rewrite length_insert; lia].
  reflexivity.
Qed.

(** ** Triples: what holds after a return, and what holds at a panic *)

Section Triples.
Context {S : Type}.
Implicit Types P R : S → Prop.

Lemma triple_ret {A} (x : A) P (Q : A → S → Prop) R :
  (∀ σ, P σ → Q x σ) → triple P (ret x) Q R.
Proof. intros H σ Hσ. simpl. auto. Qed.

Lemma triple_bind {A B} (m : M S A) (f : A → M S B) P Q' (Q : B → S → Prop) R :
  triple P m Q' R → (∀ x, triple (Q' x) (f x) Q R) → triple P (bind m f) Q R.
Proof.
  intros Hm Hf σ Hσ. specialize (Hm σ Hσ). unfold bind.
  destruct (m σ) as [x σ'|σ']; [by apply Hf|done].
Qed.

Lemma triple_conseq {A} (m : M S A) (P P' : S → Prop) (Q Q' : A → S → Prop) (R R' : S → Prop) :
  triple P' m Q' R' → (∀ σ, P σ → P' σ) → (∀ x σ, Q' x σ → Q x σ) →
  (∀ σ, R' σ → R σ) → triple P m Q R.
Proof.
  intros Hm HP HQ HR σ Hσ. specialize (Hm σ (HP σ Hσ)).
  destruct (m σ); auto.
Qed.

Lemma triple_weaken {A} (m : M S A) P (Q : A → S → Prop) R :
  triple P m Q (λ _, False) → triple P m Q R.
Proof. intros Hm. eapply triple_conseq; [exact Hm|auto..]. done. Qed.

Lemma triple_evals {A} (e : M S A) P (Q : A → S → Prop) R :
  (∀ σ, P σ → ∃ v, evals e σ v ∧ Q v σ) → triple P e Q R.
Proof. intros H σ Hσ. destruct (H σ Hσ) as (v & -> & HQ). done. Qed.

Lemma triple_forM {A} (l : list A) (body : A → M S unit) (I : S → Prop) R :
  (∀ x, x ∈ l → triple I (body x) (λ _, I) R) →
  triple I (forM_ l body) (λ _, I) R.
Proof.
  induction l as [|x l IH]; intros Hbody; simpl.
  - by apply triple_ret.
  - eapply triple_bind; [apply Hbody; left|].
    intros ?. apply IH. intros y Hy. apply Hbody. by right.
Qed.

Lemma triple_mapM {A B} (l : list A) (body : A → M S B) (I : S → Prop)
    (Qv : B → Prop) R :
  (∀ x, x ∈ l → triple I (body x) (λ v σ, Qv v ∧ I σ) R) →
  triple I (mapM body l) (λ vs σ, length vs = length l ∧ Forall Qv vs ∧ I σ) R.
Proof.
  induction l as [|x l IH]; intros Hbody; simpl.
  - apply triple_ret. auto.
  - eapply triple_bind; [apply Hbody; left|].
    intros v σ [Hv Hσ].
    assert (IH' := IH (λ y Hy, Hbody y (list_elem_of_further _ _ _ Hy)) σ Hσ).
    unfold bind. destruct (mapM body l σ) as [vs σ'|σ']; [|done].
    destruct IH' as (Hlen & Hvs & Hσ'). simpl. auto.
Qed.

Lemma triple_when (c : M S bool) (body : M S unit) P (Q : S → Prop) R :
  (∀ σ, P σ → ∃ b, evals c σ b ∧ if b then True else Q σ) →
  (∀ σ, P σ → evals c σ true → match body σ with Ok _ σ' => Q σ' | Panic σ' => R σ' end) →
  triple P (when c body) (λ _, Q) R.
Proof.
  intros Hc Hbody σ Hσ. unfold when.
  destruct (Hc σ Hσ) as (b & Hb & HQ). rewrite (bind_evals _ _ _ _ Hb).
  destruct b; [by apply Hbody|done].
Qed.
End Triples.

(** ** The invariant of a state of size 256 *)

Lemma perm_length (arr : list Z) : arr ≡ₚ seqZ 0 256 → length arr = 256%nat.
Proof. intros ->. by rewrite length_seqZ. Qed.

Lemma perm_entries (arr : list Z) ix v :
  arr ≡ₚ seqZ 0 256 → arr !! ix = Some v → 0 ≤ v < 256.
Proof.
  intros Hp Hv. apply list_elem_of_lookup_2 in Hv. rewrite Hp in Hv.
  apply elem_of_seqZ in Hv. lia.
Qed.

Lemma perm_lookup (arr : list Z) (ix : Z) :
  arr ≡ₚ seqZ 0 256 → 0 ≤ ix < 256 →
  arr !! Z.to_nat ix = Some (arr !!! Z.to_nat ix) ∧ 0 ≤ arr !!! Z.to_nat ix < 256.
Proof.
  intros Hp Hix. destruct (lookup_lt_is_Some_2 arr (Z.to_nat ix)) as [v Hv].
  { rewrite (perm_length _ Hp). lia. }
  rewrite (list_lookup_total_correct _ _ _ Hv). eauto using perm_entries.
Qed.

Lemma perm_swap (arr : list Z) (p q : Z) :
  arr ≡ₚ seqZ 0 256 → 0 ≤ p < 256 → 0 ≤ q < 256 →
  <[Z.to_nat q := arr !!! Z.to_nat p]> (<[Z.to_nat p := arr !!! Z.to_nat q]> arr)
    ≡ₚ seqZ 0 256.
Proof.
  intros Hp Hpr Hqr. etrans; [|exact Hp].
  apply Permutation_insert_swap; by apply perm_lookup.
Qed.

Lemma good_sized sl σ : good sl σ → sized σ.
Proof.
  intros [Hs Hn Hp Ha Hi Hj Hk Hw Hz]. constructor; rewrite ?Hn; try lia.
  - rewrite (perm_length _ Hp). lia.
  - intros ix v. by apply perm_entries.
Qed.

Lemma mod_256_range (x : Z) : 0 ≤ x `mod` 256 < 256.
Proof. apply Z.mod_pos_bound. lia. Qed.

Lemma update_round_good sl σ : good sl σ → good sl (update_round σ).
Proof.
  intros [Hs Hn Hp Ha Hi Hj Hk Hw Hz]. destruct σ as [st arr]. simpl in *.
  unfold update_round. rewrite Hn.
  constructor; simpl; auto using mod_256_range.
  apply perm_swap; auto using mod_256_range.
Qed.

Lemma update_good sl : triple (good sl) update (λ _, good sl) (λ _, False).
Proof.
  intros σ Hσ. rewrite update_ok by eauto using good_sized.
  by apply update_round_good.
Qed.

(** ** Stepping through a method body *)

Ltac ev :=
  lazymatch goal with
  | |- evals (ret _) _ _ => apply evals_ret
  | |- evals (field _) _ _ => apply evals_field
  | |- evals (lift2 _ _ _) _ _ => apply evals_lift2; [ev|ev]
  | |- evals (int_rem _ _) _ _ => apply evals_rem; [ev|ev|simpl; try lia]
  | |- evals (int_quo _ _) _ _ => apply evals_quo; [ev|ev|simpl; try lia]
  | |- evals (s_at _) _ _ => apply evals_s_at; [ev|simpl; try lia]
  | |- evals ?e _ _ => unfold e; ev
  end.

(** Run the first statement of the body in the goal. *)
Ltac step :=
  lazymatch goal with
  | |- context [bind (assign ?f ?e) ?g ?σ] =>
      erewrite (bind_ok (assign f e) g σ); [|apply assign_ok; ev]
  | |- context [bind (set_at ?e1 ?e2) ?g ?σ] =>
      erewrite (bind_ok (set_at e1 e2) g σ); [|eapply set_at_ok; [ev|ev|simpl; try lia]]
  | |- context [bind ?e ?g ?σ] =>
      erewrite (bind_evals e g σ); [|ev]
  | |- context [assign ?f ?e ?σ] =>
      erewrite (assign_ok f e σ); [|ev]
  | |- context [set_at ?e1 ?e2 ?σ] =>
      erewrite (set_at_ok e1 e2 σ); [|ev|ev|simpl; try lia]
  end; simpl.

Lemma rem_256 (x : Z) : 0 ≤ x → Z.rem x 256 = x `mod` 256.
Proof. intros Hx. apply Z.rem_mod_nonneg; lia. Qed.

Lemma quot_nonneg (x y : Z) : 0 ≤ x → 0 < y → Z.quot x y = x `div` y.
Proof. intros. apply Z.quot_div_nonneg; lia. Qed.

(** Name the array entry at [v] and record its range. *)
Ltac entry Hp v :=
  let H1 := fresh "Hentry" in
  let H2 := fresh "Hrange" in
  destruct (perm_lookup _ v Hp) as [H1 H2]; [try apply mod_256_range; try lia|].

Lemma output_good sl (a0 : Z) :
  triple (λ σ, good sl σ ∧ σ.1.(a) = a0) output
    (λ v σ, 0 ≤ v < 256 ∧ good sl σ ∧ σ.1.(a) = a0) (λ _, False).
Proof.
  intros [st arr] [[Hs Hn Hp Ha Hi Hj Hk Hw Hz] Ha0]. simpl in *.
  pose proof (perm_length _ Hp) as Hlen.
  unfold output, set_z, s_z, s_i, s_j, s_k, s_n.
  step. rewrite int_add_small, Hn, rem_256 by lia.
  set (y1 := (st.(z) + st.(k)) `mod` 256). entry Hp y1.
  pose proof (mod_256_range (st.(z) + st.(k))) as Hy1. fold y1 in Hy1.
  step. rewrite int_add_small, Hn, rem_256 by lia.
  set (x1 := (st.(i) + arr !!! Z.to_nat y1) `mod` 256). entry Hp x1.
  pose proof (mod_256_range (st.(i) + arr !!! Z.to_nat y1)) as Hx1. fold x1 in Hx1.
  step. rewrite int_add_small, Hn, rem_256 by lia.
  set (y2 := (st.(j) + arr !!! Z.to_nat x1) `mod` 256). entry Hp y2.
  pose proof (mod_256_range (st.(j) + arr !!! Z.to_nat x1)) as Hy2. fold y2 in Hy2.
  step. split; [done|]. split; [by constructor|done].
Qed.

Lemma half_256 : wrap (Z.quot 256 2) = 128.
Proof. reflexivity. Qed.

Lemma evals_half sl σ : good sl σ → evals (s_n /ᵢ ret 2) σ 128.
Proof.
  intros Hσ.
  assert (evals (s_n /ᵢ ret 2) σ (wrap (Z.quot σ.1.(n) 2))) as H by ev.
  rewrite (good_n _ _ Hσ), half_256 in H. exact H.
Qed.

Lemma crush_good sl : triple (good sl) crush (λ _, good sl) (λ _, False).
Proof.
  unfold crush. eapply triple_bind with (Q' := λ v σ, v = 128 ∧ good sl σ).
  { apply triple_evals. intros σ Hσ. exists 128. eauto using evals_half. }
  intros hi σ [-> Hσ]. revert σ Hσ. apply triple_forM.
  intros ix Hix%elem_of_seqZ [st arr] [Hs Hn Hp Ha Hi Hj Hk Hw Hz]. simpl in *.
  pose proof (perm_length _ Hp) as Hlen.
  unfold s_n. step. rewrite Hn, !int_sub_small by (rewrite ?int_sub_small; lia).
  entry Hp ix. entry Hp (256 - 1 - ix).
  step. step.
  destruct (arr !!! Z.to_nat ix >? arr !!! Z.to_nat (256 - 1 - ix)).
  - step. step; [|rewrite length_insert; lia].
    constructor; simpl; try done. apply perm_swap; lia || done.
  - step. step; [|rewrite length_insert; lia].
    constructor; simpl; try done.
    rewrite (list_insert_id arr) by done. by rewrite list_insert_id.
Qed.

Lemma whip_good sl : triple (good sl) whip (λ _, good sl) (λ _, False).
Proof.
  unfold whip. eapply triple_bind with (Q' := λ v σ, good sl σ).
  { apply triple_evals. intros σ Hσ. eexists. split; [unfold s_n; ev|done]. }
  intros r. eapply triple_bind with (Q' := λ v σ, good sl σ).
  { apply triple_forM. intros _ _. apply update_good. }
  intros ? [st arr] [Hs Hn Hp Ha Hi Hj Hk Hw Hz]. simpl in *.
  unfold set_w, s_w, s_n. step.
  rewrite int_add_small, Hn, rem_256 by lia.
  constructor; simpl; auto using mod_256_range.
Qed.

Lemma shuffle_good sl :
  triple (good sl) shuffle (λ _ σ, good sl σ ∧ σ.1.(a) = 0) (λ _, False).
Proof.
  unfold shuffle.
  eapply triple_bind; [apply whip_good|]. intros ?.
  eapply triple_bind; [apply crush_good|]. intros ?.
  eapply triple_bind; [apply whip_good|]. intros ?.
  eapply triple_bind; [apply crush_good|]. intros ?.
  eapply triple_bind; [apply whip_good|]. intros ?.
  intros [st arr] [Hs Hn Hp Ha Hi Hj Hk Hw Hz]. simpl in *.
  split; [by constructor|done].
Qed.

Lemma rem_256_lt (x : Z) : Z.rem x 256 < 256.
Proof. pose proof (Z.rem_bound_abs x 256). lia. Qed.

Lemma rem_16_range (x : Z) : - 16 < Z.rem x 16 < 16.
Proof. pose proof (Z.rem_bound_abs x 16). lia. Qed.

Lemma s_at_panic (e : method Z) σ ix :
  evals e σ ix → ¬ (0 ≤ ix < Z.of_nat (length σ.2)) → s_at e σ = Panic σ.
Proof.
  intros He Hix. unfold s_at. rewrite (bind_evals _ _ _ _ He).
  destruct (Z.leb_spec 0 ix), (Z.ltb_spec ix (Z.of_nat (length σ.2))); simpl; done || lia.
Qed.

Lemma set_at_rhs_panic (e1 e2 : method Z) σ σ' ix :
  evals e1 σ ix → e2 σ = Panic σ' → set_at e1 e2 σ = Panic σ'.
Proof.
  intros H1 H2. unfold set_at. rewrite (bind_evals _ _ _ _ H1).
  by rewrite (bind_panic _ _ _ _ H2).
Qed.

Lemma when_half_good sl :
  triple (good sl) (when (s_a ==ᵢ s_n /ᵢ ret 2) shuffle) (λ _, good sl) (λ _, False).
Proof.
  apply triple_when.
  - intros σ Hσ. eexists. split.
    + apply evals_lift2; [unfold s_a; ev|by eapply evals_half].
    + by destruct (_ =? _).
  - intros σ Hσ _. pose proof (shuffle_good sl σ Hσ) as H.
    destruct (shuffle σ); [tauto|done].
Qed.

Lemma when_pending_good sl :
  triple (good sl) (when (s_a >ᵢ ret 0) shuffle)
    (λ _ σ, good sl σ ∧ σ.1.(a) = 0) (λ _, False).
Proof.
  apply triple_when.
  - intros σ Hσ. eexists. split; [unfold s_a; ev|].
    simpl. pose proof (good_a _ _ Hσ). destruct (Z.gtb_spec σ.1.(a) 0); [done|].
    split; [done|lia].
  - intros σ Hσ _. apply (shuffle_good sl σ Hσ).
Qed.

Lemma absorbNibble_good sl (x : Z) :
  triple (good sl) (absorbNibble x) (λ _, good sl)
    (λ σ, good sl σ ∧ nibble_slot x < 0).
Proof.
  unfold absorbNibble.
  eapply triple_bind.
  { apply triple_weaken, when_half_good. }
  intros ? [st arr] Hσ. pose proof (evals_half _ _ Hσ) as Hhalf.
  destruct Hσ as [Hs Hn Hp Ha Hi Hj Hk Hw Hz]. simpl in *.
  pose proof (perm_length _ Hp) as Hlen.
  erewrite bind_evals; cycle 1.
  { apply evals_rem; [apply evals_lift2; [exact Hhalf|ev]|unfold s_n; ev|simpl; lia]. }
  simpl. rewrite Hn. fold (nibble_slot x).
  pose proof (rem_256_lt (int_add 128 x)) as Hlt. fold (nibble_slot x) in Hlt.
  unfold s_a, s_n, set_a. entry Hp st.(a).
  destruct (decide (0 ≤ nibble_slot x)) as [Hge|Hneg].
  - entry Hp (nibble_slot x).
    step. step. step; [|rewrite length_insert; lia].
    step. rewrite int_add_small, Hn, rem_256 by lia.
    constructor; simpl; auto using mod_256_range.
    apply perm_swap; lia || done.
  - step. erewrite bind_panic; cycle 1.
    { eapply set_at_rhs_panic; [ev|]. eapply s_at_panic; [ev|simpl; lia]. }
    split; [by constructor|lia].
Qed.

Lemma sixteenth_256 : wrap (Z.quot 256 16) = 16.
Proof. reflexivity. Qed.

Lemma low_nibble_slot (b : Z) : 0 ≤ nibble_slot (Z.rem b 16).
Proof.
  pose proof (rem_16_range b). unfold nibble_slot.
  rewrite int_add_small by lia. apply Z.rem_nonneg; lia.
Qed.

Lemma absorbValue_good sl (b : Z) :
  triple (good sl) (absorbValue b) (λ _, good sl)
    (λ σ, good sl σ ∧ ¬ absorbable b).
Proof.
  unfold absorbValue.
  eapply triple_bind with (Q' := λ v σ, v = 16 ∧ good sl σ).
  { apply triple_evals. intros σ Hσ. exists 16. split; [|done].
    assert (evals (s_n /ᵢ ret 16) σ (wrap (Z.quot σ.1.(n) 16))) as H by ev.
    by rewrite (good_n _ _ Hσ), sixteenth_256 in H. }
  intros d. eapply triple_bind with (Q' := λ v σ, v = Z.rem b 16 ∧ d = 16 ∧ good sl σ).
  { apply triple_evals. intros σ [-> Hσ]. eexists. split; [ev|done]. }
  intros lo. eapply triple_bind with (Q' := λ _ σ, d = 16 ∧ good sl σ).
  { intros σ (-> & -> & Hσ). pose proof (absorbNibble_good sl (Z.rem b 16) σ Hσ) as H.
    pose proof (low_nibble_slot b).
    destruct (absorbNibble _ σ); [done|]. lia. }
  intros ?. eapply triple_bind with (Q' := λ v σ, v = wrap (Z.quot b 16) ∧ good sl σ).
  { apply triple_evals. intros σ [-> Hσ]. eexists. split; [ev|done]. }
  intros hi σ [-> Hσ]. pose proof (absorbNibble_good sl (wrap (Z.quot b 16)) σ Hσ) as H.
  destruct (absorbNibble _ σ); [done|]. unfold absorbable. split; [tauto|lia].
Qed.

Lemma absorb_good sl (msg : list Z) :
  triple (good sl) (absorb msg) (λ _, good sl)
    (λ σ, good sl σ ∧ ¬ Forall absorbable msg).
Proof.
  unfold absorb. apply triple_forM. intros b Hb.
  apply (triple_conseq _ _ _ _ _ _ _ (absorbValue_good sl b)); [done..|].
  intros σ [Hσ Hbad]. split; [done|]. intros Hall.
  rewrite Forall_forall in Hall. apply Hbad, Hall, list_elem_of_In, Hb.
Qed.

Lemma drip_good sl :
  triple (good sl) drip
    (λ v σ, 0 ≤ v < 256 ∧ good sl σ ∧ σ.1.(a) = 0) (λ _, False).
Proof.
  unfold drip.
  eapply triple_bind; [apply when_pending_good|]. intros ?.
  eapply triple_bind with (Q' := λ _ σ, good sl σ ∧ σ.1.(a) = 0).
  { intros [st arr] [Hσ Ha]. rewrite update_ok by eauto using good_sized.
    split; [by apply update_round_good|done]. }
  intros ?. apply output_good.
Qed.

Lemma squeeze_good sl (out : list Z) :
  triple (good sl) (squeeze out)
    (λ vs σ, length vs = length out ∧ Forall (λ v, 0 ≤ v < 256) vs ∧ good sl σ)
    (λ _, False).
Proof.
  unfold squeeze.
  eapply triple_bind with (Q' := λ _, good sl).
  { eapply triple_conseq; [apply when_pending_good|done| |done]. by intros ? ? []. }
  intros ?. apply triple_mapM. intros _ _.
  eapply triple_conseq; [apply drip_good|done| |done]. by intros ? ? (? & ? & ?).
Qed.

Lemma keySetup_good sl (key : list Z) :
  triple (good sl) (keySetup key) (λ _ σ, good sl σ ∧ σ.1.(a) = 0)
    (λ σ, good sl σ ∧ ¬ Forall absorbable key).
Proof.
  unfold keySetup.
  eapply triple_bind; [apply absorb_good|].
  intros ?. apply triple_weaken, when_pending_good.
Qed.

Lemma absorbStop_good sl :
  triple (good sl) absorbStop (λ _, good sl) (λ _, False).
Proof.
  unfold absorbStop.
  eapply triple_bind; [apply when_half_good|].
  intros ? [st arr] [Hs Hn Hp Ha Hi Hj Hk Hw Hz]. simpl in *.
  unfold set_a, s_a, s_n. step.
  rewrite int_add_small, Hn, rem_256 by lia.
  constructor; simpl; auto using mod_256_range.
Qed.

(** Non-negative ints, bytes among them, are absorbed without a panic. *)
Lemma absorbable_nonneg (b : Z) : 0 ≤ b < 2 ^ 63 → absorbable b.
Proof.
  intros Hb. unfold absorbable, nibble_slot.
  assert (0 ≤ b `div` 16 < 2 ^ 60).
  { split; [apply Z.div_pos; lia|]. apply Z.div_lt_upper_bound; lia. }
  rewrite quot_nonneg, wrap_small, int_add_small by lia.
  apply Z.rem_nonneg; lia.
Qed.

Lemma int_of_byte_range (v : byte) : 0 ≤ int_of_byte v < 256.
Proof. unfold int_of_byte. pose proof (Byte.to_N_bounded v). lia. Qed.

Lemma absorbable_bytes (p : list byte) : Forall absorbable (int_of_byte <$> p).
Proof.
  apply list.Forall_fmap, list.Forall_true. intros v. simpl.
  apply absorbable_nonneg. pose proof (int_of_byte_range v). lia.
Qed.

(** ** Method bodies do not look at the slice header

    Which backing array the receiver's slice header refers to makes no
    difference to a method body: run on a receiver with another header, it
    returns the same value and leaves the same registers and array
    contents, and the header it was given. *)

Lemma with_s_with_s sl sl' st : with_s sl (with_s sl' st) = with_s sl st.
Proof. reflexivity. Qed.

Lemma with_s_same st : with_s st.(s) st = st.
Proof. by destruct st. Qed.

Section HeaderBlind.
Lemma hb_ret {A} (x : A) : header_blind (ret x).
Proof. done. Qed.

Lemma hb_panic {A} : header_blind (@panic _ A).
Proof. done. Qed.

Lemma hb_bind {A B} (m : method A) (f : A → method B) :
  header_blind m → (∀ x, header_blind (f x)) → header_blind (bind m f).
Proof.
  intros Hm Hf sl st arr. unfold bind. rewrite Hm.
  destruct (m (st, arr)) as [x [st' arr']|[st' arr']]; simpl; [apply Hf|done].
Qed.

Lemma hb_field (f : state → Z) :
  (∀ sl st, f (with_s sl st) = f st) → header_blind (field f).
Proof. intros Hf sl st arr. unfold field. simpl. by rewrite Hf. Qed.

Lemma hb_assign (f : Z → state → state) (e : method Z) :
  (∀ v sl st, f v (with_s sl st) = with_s sl (f v st)) →
  header_blind e → header_blind (assign f e).
Proof.
  intros Hf He. apply hb_bind; [done|]. intros v sl st arr. simpl. by rewrite Hf.
Qed.

Lemma hb_len_s : header_blind len_s.
Proof. done. Qed.

Lemma hb_s_at (e : method Z) : header_blind e → header_blind (s_at e).
Proof.
  intros He. apply hb_bind; [done|]. intros ix sl st arr. simpl.
  by destruct (_ && _).
Qed.

Lemma hb_set_at (e1 e2 : method Z) :
  header_blind e1 → header_blind e2 → header_blind (set_at e1 e2).
Proof.
  intros H1 H2. apply hb_bind; [done|]. intros ix.
  apply hb_bind; [done|]. intros v sl st arr. simpl.
  by destruct (_ && _).
Qed.

Lemma hb_lift2 {A} (f : Z → Z → A) (e1 e2 : method Z) :
  header_blind e1 → header_blind e2 → header_blind (lift2 f e1 e2).
Proof.
  intros H1 H2. apply hb_bind; [done|]. intros x.
  apply hb_bind; [done|]. intros y. apply hb_ret.
Qed.

Lemma hb_rem (e1 e2 : method Z) :
  header_blind e1 → header_blind e2 → header_blind (e1 %ᵢ e2).
Proof.
  intros H1 H2. apply hb_bind; [done|]. intros x.
  apply hb_bind; [done|]. intros y. destruct (y =? 0); [apply hb_panic|apply hb_ret].
Qed.

Lemma hb_quo (e1 e2 : method Z) :
  header_blind e1 → header_blind e2 → header_blind (e1 /ᵢ e2).
Proof.
  intros H1 H2. apply hb_bind; [done|]. intros x.
  apply hb_bind; [done|]. intros y. destruct (y =? 0); [apply hb_panic|apply hb_ret].
Qed.

Lemma hb_when (c : method bool) (body : method unit) :
  header_blind c → header_blind body → header_blind (when c body).
Proof.
  intros Hc Hb. apply hb_bind; [done|]. intros []; [done|apply hb_ret].
Qed.

Lemma hb_forM {A} (l : list A) (body : A → method unit) :
  (∀ x, header_blind (body x)) → header_blind (forM_ l body).
Proof.
  intros Hb. induction l as [|x l IH]; simpl; [apply hb_ret|].
  apply hb_bind; [apply Hb|done].
Qed.

Lemma hb_for_to (hi : Z) (body : Z → method unit) :
  (∀ x, header_blind (body x)) → header_blind (for_to hi body).
Proof. apply hb_forM. Qed.

Lemma hb_mapM {A B} (l : list A) (body : A → method B) :
  (∀ x, header_blind (body x)) → header_blind (mapM body l).
Proof.
  intros Hb. induction l as [|x l IH]; simpl; [apply hb_ret|].
  apply hb_bind; [apply Hb|]. intros y.
  apply hb_bind; [done|]. intros ys. apply hb_ret.
Qed.

Lemma hb_make_ints (len : Z) : header_blind (make_ints len).
Proof. unfold make_ints. destruct (refused len); [apply hb_panic|apply hb_ret]. Qed.
End HeaderBlind.

Create HintDb hb.

Ltac head_of t :=
  lazymatch t with
  | ?f _ => head_of f
  | _ => t
  end.

Ltac hb :=
  cbv beta;
  lazymatch goal with
  | |- header_blind (ret _) => apply hb_ret
  | |- header_blind panic => apply hb_panic
  | |- header_blind (bind _ _) => apply hb_bind; [hb|intros ?; hb]
  | |- header_blind (field _) => apply hb_field; reflexivity
  | |- header_blind (assign _ _) => apply hb_assign; [reflexivity|hb]
  | |- header_blind len_s => apply hb_len_s
  | |- header_blind (s_at _) => apply hb_s_at; hb
  | |- header_blind (set_at _ _) => apply hb_set_at; hb
  | |- header_blind (lift2 _ _ _) => apply hb_lift2; hb
  | |- header_blind (int_rem _ _) => apply hb_rem; hb
  | |- header_blind (int_quo _ _) => apply hb_quo; hb
  | |- header_blind (when _ _) => apply hb_when; hb
  | |- header_blind (forM_ _ _) => apply hb_forM; intros ?; hb
  | |- header_blind (for_to _ _) => apply hb_for_to; intros ?; hb
  | |- header_blind (mapM _ _) => apply hb_mapM; intros ?; hb
  | |- header_blind (make_ints _) => apply hb_make_ints
  | |- header_blind (if ?b then _ else _) => destruct b; hb
  | |- header_blind ?m =>
      first [assumption | solve [auto with hb] | let h := head_of m in unfold h; hb]
  end.

Lemma hb_fill_identity : header_blind fill_identity.
Proof. unfold fill_identity. hb. Qed.
Lemma hb_update : header_blind update.
Proof. unfold update. hb. Qed.
Lemma hb_output : header_blind output.
Proof. unfold output. hb. Qed.
Lemma hb_crush : header_blind crush.
Proof. unfold crush. hb. Qed.
#[local] Hint Resolve hb_update hb_output hb_crush : hb.
Lemma hb_whip : header_blind whip.
Proof. unfold whip. hb. Qed.
#[local] Hint Resolve hb_whip : hb.
Lemma hb_shuffle : header_blind shuffle.
Proof. unfold shuffle. hb. Qed.
#[local] Hint Resolve hb_shuffle : hb.
Lemma hb_absorbStop : header_blind absorbStop.
Proof. unfold absorbStop. hb. Qed.
Lemma hb_absorbNibble x : header_blind (absorbNibble x).
Proof. unfold absorbNibble. hb. Qed.
#[local] Hint Resolve hb_absorbStop hb_absorbNibble : hb.
Lemma hb_absorbValue b : header_blind (absorbValue b).
Proof. unfold absorbValue. hb. Qed.
#[local] Hint Resolve hb_absorbValue : hb.
Lemma hb_absorb msg : header_blind (absorb msg).
Proof. unfold absorb. hb. Qed.
Lemma hb_drip : header_blind drip.
Proof. unfold drip. hb. Qed.
#[local] Hint Resolve hb_absorb hb_drip : hb.
Lemma hb_squeeze out : header_blind (squeeze out).
Proof. unfold squeeze. hb. Qed.
Lemma hb_keySetup key : header_blind (keySetup key).
Proof. unfold keySetup. hb. Qed.
#[local] Hint Resolve hb_squeeze hb_keySetup : hb.

(** In particular a method body returns the header it was given. *)
Lemma header_kept {A} (m : method A) st arr :
  header_blind m → (final (m (st, arr))).1.(s) = st.(s).
Proof.
  intros Hm. rewrite <- (with_s_same st) at 1. rewrite Hm.
  by destruct (m (st, arr)) as [? []|[]].
Qed.

(** ** The memory invariant *)

Lemma good_init l : good (Some l) (init_state l, seqZ 0 256).
Proof. constructor; simpl; done || lia. Qed.

Lemma struct_ok_app h h' st : struct_ok h st → struct_ok (h ++ h') st.
Proof.
  intros (l & arr & Hs & Hl & Hg). exists l, arr. split_and!; [done| |done].
  by apply lookup_app_l_Some.
Qed.

Lemma struct_ok_insert h l arr' st :
  arr' ≡ₚ seqZ 0 256 → struct_ok h st → struct_ok (<[l := arr']> h) st.
Proof.
  intros Hp (l0 & arr & Hs & Hl & Hg).
  destruct (decide (l = l0)) as [->|Hne].
  - exists l0, arr'. split_and!; [done| |].
    + apply list_lookup_insert_eq. by eapply lookup_lt_Some.
    + destruct Hg. by constructor.
  - exists l0, arr. split_and!; [done| |done]. by rewrite list_lookup_insert_ne.
Qed.

Lemma mem_inv_arrays μ l arr' :
  mem_inv μ → arr' ≡ₚ seqZ 0 256 →
  mem_inv (mkMem μ.(structs) (<[l := arr']> μ.(arrays))).
Proof. intros Hμ Hp p st Hst. simpl in *. apply struct_ok_insert; eauto. Qed.

Lemma mem_inv_structs μ p st' :
  mem_inv_but p μ → struct_ok μ.(arrays) st' →
  mem_inv (mkMem (<[p := st']> μ.(structs)) μ.(arrays)).
Proof.
  intros Hμ Hst' q st Hq. simpl in *.
  destruct (decide (p = q)) as [->|Hne].
  - assert (q < length μ.(structs))%nat as Hlt.
    { apply lookup_lt_Some in Hq. by rewrite length_insert in Hq. }
    rewrite list_lookup_insert_eq in Hq by done. by simplify_eq.
  - rewrite list_lookup_insert_ne in Hq by done. by apply (Hμ q).
Qed.

Lemma mem_inv_weaken p μ : mem_inv μ → mem_inv_but p μ.
Proof. intros Hμ q st _. apply Hμ. Qed.

Lemma backing_ok μ st l arr :
  st.(s) = Some l → μ.(arrays) !! l = Some arr → backing μ st.(s) = arr.
Proof. intros -> Hl. simpl. by rewrite Hl. Qed.

(** What a method call leaves, from what the method body leaves. *)
Lemma commit_inv μ p st σ' :
  mem_inv μ → μ.(structs) !! p = Some st → good st.(s) σ' →
  mem_inv (mkMem (<[p := σ'.1]> μ.(structs)) (write_back st.(s) σ'.2 μ.(arrays))).
Proof.
  intros Hμ Hp Hg. destruct (Hμ p st Hp) as (l & arr & Hs & Hl & _).
  rewrite Hs in *. simpl.
  apply (mem_inv_structs (mkMem _ _)).
  - apply mem_inv_weaken, mem_inv_arrays; [done|apply Hg].
  - simpl. exists l, σ'.2. split_and!; [apply Hg| |by destruct σ'].
    apply list_lookup_insert_eq. by eapply lookup_lt_Some.
Qed.

Lemma call_inv {A} (p : ptr) (m : method A) (Qv : A → state → Prop) (Rp : Prop) :
  (∀ sl, triple (good sl) m (λ x σ, good sl σ ∧ Qv x σ.1) (λ σ, good sl σ ∧ Rp)) →
  triple mem_inv (call p m)
    (λ x μ, mem_inv μ ∧ ∃ st, μ.(structs) !! p = Some st ∧ Qv x st)
    (λ μ, mem_inv μ ∧ (Rp ∨ μ.(structs) !! p = None)).
Proof.
  intros Hm μ Hμ. unfold call.
  destruct (μ.(structs) !! p) as [st|] eqn:Hp; [|by auto].
  destruct (Hμ p st Hp) as (l & arr & Hs & Hl & Hg).
  rewrite (backing_ok _ _ _ _ Hs Hl).
  specialize (Hm _ _ Hg). rewrite <- Hs in Hm.
  destruct (m (st, arr)) as [x σ'|σ']; destruct Hm as [Hg' HQ].
  - split; [by apply commit_inv|]. exists σ'.1. split; [|done]. simpl.
    apply list_lookup_insert_eq. by eapply lookup_lt_Some.
  - split; [by apply commit_inv|by left].
Qed.

Lemma on_local_inv {A} (st : state) (m : method A) (Qv : A → Prop) (Rp : Prop) :
  (∀ sl, triple (good sl) m (λ x σ, good sl σ ∧ Qv x) (λ σ, good sl σ ∧ Rp)) →
  triple (λ μ, mem_inv μ ∧ struct_ok μ.(arrays) st) (on_local st m)
    (λ x μ, mem_inv μ ∧ Qv x) (λ μ, mem_inv μ ∧ Rp).
Proof.
  intros Hm μ [Hμ (l & arr & Hs & Hl & Hg)]. unfold on_local.
  rewrite (backing_ok _ _ _ _ Hs Hl).
  specialize (Hm _ _ Hg). rewrite Hs. simpl.
  destruct (m (st, arr)) as [x σ'|σ']; destruct Hm as [Hg' HQ];
    (split; [|done]); apply mem_inv_arrays; done || apply Hg'.
Qed.

(** ** initialize *)

Lemma fill_identity_ok st : fill_identity (st, replicate 256 0) = Ok tt (st, seqZ 0 256).
Proof. vm_compute. reflexivity. Qed.

Lemma call_ok {A} (p : ptr) (m : method A) μ st x σ' :
  μ.(structs) !! p = Some st → m (st, backing μ st.(s)) = Ok x σ' →
  call p m μ =
    Ok x (mkMem (<[p := σ'.1]> μ.(structs)) (write_back st.(s) σ'.2 μ.(arrays))).
Proof. intros Hp Hm. unfold call. by rewrite Hp, Hm. Qed.

Lemma initialize_ok (p : ptr) (n_ : Z) μ :
  is_Some (μ.(structs) !! p) →
  initialize p n_ μ =
    Ok tt (mkMem (<[p := init_state (length μ.(arrays))]> μ.(structs))
                 (μ.(arrays) ++ [seqZ 0 256])).
Proof.
  intros [st0 Hp]. unfold initialize.
  erewrite bind_ok by reflexivity.
  erewrite bind_ok; cycle 1.
  { unfold store. cbn [structs arrays]. by rewrite Hp. }
  erewrite call_ok; cycle 1.
  { cbn [structs]. apply list_lookup_insert_eq. by eapply lookup_lt_Some. }
  { cbn [backing s arrays]. rewrite lookup_app_r, Nat.sub_diag by done.
    apply fill_identity_ok. }
  cbn [structs arrays fst snd write_back s].
  rewrite list_insert_insert_eq.
  by rewrite insert_app_r_alt, Nat.sub_diag by done.
Qed.

Lemma initialize_dangling (p : ptr) (n_ : Z) μ :
  μ.(structs) !! p = None →
  initialize p n_ μ = Panic (mkMem μ.(structs) (μ.(arrays) ++ [replicate 256 0])).
Proof.
  intros Hp. unfold initialize.
  erewrite bind_ok by reflexivity.
  apply bind_panic. unfold store. cbn [structs arrays]. by rewrite Hp.
Qed.

Lemma mem_inv_but_app q μ h' :
  mem_inv_but q μ → mem_inv_but q (mkMem μ.(structs) (μ.(arrays) ++ h')).
Proof. intros Hμ p st Hne Hp. apply struct_ok_app. by eapply Hμ. Qed.

Lemma initialize_inv (p : ptr) (n_ : Z) :
  triple (mem_inv_but p) (initialize p n_) (λ _, mem_inv) mem_inv.
Proof.
  intros μ Hμ. destruct (μ.(structs) !! p) as [st0|] eqn:Hp.
  - rewrite initialize_ok by eauto.
    apply (mem_inv_structs (mkMem _ _)); [by apply mem_inv_but_app|].
    exists (length μ.(arrays)), (seqZ 0 256). split_and!; [done| |apply good_init].
    change ((μ.(arrays) ++ [seqZ 0 256]) !! length μ.(arrays) = Some (seqZ 0 256)).
    by rewrite lookup_app_r, Nat.sub_diag.
  - rewrite initialize_dangling by done.
    intros q st Hq. change (μ.(structs) !! q = Some st) in Hq.
    apply struct_ok_app. apply (Hμ q st); [|done]. intros ->.
    unfold ptr in *. by rewrite Hp in Hq.
Qed.

(** ** The constructors *)

Lemma new_state_ok μ :
  new_state μ = Ok (length μ.(structs)) (mkMem (μ.(structs) ++ [zero_state]) μ.(arrays)).
Proof. reflexivity. Qed.

Lemma lookup_snoc {A} (l : list A) (x : A) : (l ++ [x]) !! length l = Some x.
Proof. by rewrite lookup_app_r, Nat.sub_diag. Qed.

Lemma insert_snoc {A} (l : list A) (x y : A) : <[length l := y]> (l ++ [x]) = l ++ [y].
Proof. by rewrite insert_app_r_alt, Nat.sub_diag. Qed.

(** What NewHash leaves: one more struct, one more array, whatever [size]. *)
Lemma NewHash_ok (size : Z) μ :
  NewHash size μ =
    Ok (digest.mk size (length μ.(structs)))
       (mkMem (μ.(structs) ++ [init_state (length μ.(arrays))])
              (μ.(arrays) ++ [seqZ 0 256])).
Proof.
  unfold NewHash, Reset. rewrite (bind_ok _ _ _ _ _ (new_state_ok μ)).
  cbn [digest.s]. erewrite bind_ok; cycle 1.
  { apply initialize_ok. cbn [structs]. rewrite lookup_snoc. eauto. }
  cbn [structs arrays]. by rewrite insert_snoc.
Qed.

Lemma key_schedule_ok (key : list byte) :
  ∃ σ, key_schedule key = Ok tt σ ∧ good (Some 0%nat) σ ∧ σ.1.(a) = 0.
Proof.
  pose proof (keySetup_good (Some 0%nat) (int_of_byte <$> key) _ (good_init 0)) as H.
  unfold key_schedule. destruct (keySetup _ _) as [[] σ|σ].
  - by exists σ.
  - destruct H as [_ []]. apply absorbable_bytes.
Qed.

Lemma keySetup_fresh (key : list byte) (l : nat) σ :
  key_schedule key = Ok tt σ →
  keySetup (int_of_byte <$> key) (init_state l, seqZ 0 256) =
    Ok tt (with_s (Some l) σ.1, σ.2).
Proof.
  intros Hk. change (init_state l) with (with_s (Some l) (init_state 0)).
  rewrite hb_keySetup. unfold key_schedule in Hk. by rewrite Hk.
Qed.

Lemma NewStream_ok (key : list byte) μ σ :
  key_schedule key = Ok tt σ →
  NewStream key μ =
    Ok (stream.mk (length μ.(structs)))
       (mkMem (μ.(structs) ++ [with_s (Some (length μ.(arrays))) σ.1])
              (μ.(arrays) ++ [σ.2])).
Proof.
  intros Hk. unfold NewStream. rewrite (bind_ok _ _ _ _ _ (new_state_ok μ)).
  erewrite bind_ok; cycle 1.
  { apply initialize_ok. cbn [structs]. rewrite lookup_snoc. eauto. }
  cbn [structs arrays]. rewrite insert_snoc.
  erewrite bind_ok; cycle 1.
  { eapply call_ok; [apply lookup_snoc|].
    cbn [backing init_state s arrays]. rewrite lookup_snoc. cbn [default].
    by apply keySetup_fresh. }
  cbn [structs arrays init_state s write_back fst snd].
  by rewrite !insert_snoc.
Qed.

(** ** The public operations keep the memory invariant *)

Lemma mem_inv_empty : mem_inv empty_mem.
Proof. by intros [|p] st Hp. Qed.

Lemma mem_inv_alloc μ st arr :
  mem_inv μ → good (Some (length μ.(arrays))) (st, arr) →
  mem_inv (mkMem (μ.(structs) ++ [st]) (μ.(arrays) ++ [arr])).
Proof.
  intros Hμ Hg p st' Hp. cbn [structs arrays] in *.
  apply lookup_app_Some in Hp as [Hp|[_ Hp]].
  - by apply struct_ok_app, (Hμ p).
  - apply list_lookup_singleton_Some in Hp as [_ <-].
    exists (length μ.(arrays)), arr. split_and!; [apply Hg|apply lookup_snoc|done].
Qed.

Lemma good_reheader sl sl' σ : good sl σ → good sl' (with_s sl' σ.1, σ.2).
Proof. intros []. by constructor. Qed.

Lemma NewHash_inv (size : Z) :
  triple mem_inv (NewHash size) (λ _, mem_inv) (λ _, False).
Proof. intros μ Hμ. rewrite NewHash_ok. apply mem_inv_alloc, good_init. done. Qed.

Lemma NewStream_inv (key : list byte) :
  triple mem_inv (NewStream key) (λ _, mem_inv) (λ _, False).
Proof.
  intros μ Hμ. destruct (key_schedule_ok key) as (σ & Hk & Hg & _).
  rewrite (NewStream_ok _ _ _ Hk). apply mem_inv_alloc; [done|].
  by eapply good_reheader.
Qed.

Lemma Reset_inv (d : digest.t) : triple mem_inv (Reset d) (λ _, mem_inv) mem_inv.
Proof.
  intros μ Hμ. apply initialize_inv. by apply mem_inv_weaken.
Qed.

Lemma Write_inv (d : digest.t) (p : list byte) :
  triple mem_inv (Write d p) (λ _, mem_inv)
    (λ μ, mem_inv μ ∧ μ.(structs) !! d.(digest.s) = None).
Proof.
  unfold Write. eapply triple_bind with (Q' := λ _, mem_inv).
  - eapply triple_conseq;
      [apply (call_inv _ _ (λ _ _, True) False)|done|by intros ? ? []|].
    + intros sl. eapply triple_conseq; [apply absorb_good|done|done|].
      intros σ [_ []]. apply absorbable_bytes.
    + intros μ [Hμ [[]|Hp]]. done.
  - intros ?. by apply triple_ret.
Qed.

(** The body of Sum, on the local copy of the struct. *)
Lemma Sum_body_good sl (size : Z) :
  triple (good sl)
    (absorbStop ;; absorb [size] ;; out <- make_ints size ;; squeeze out)
    (λ out σ, good sl σ ∧ length out = Z.to_nat size)
    (λ σ, good sl σ ∧ (¬ absorbable size ∨ refused size = true)).
Proof.
  eapply triple_bind; [apply triple_weaken, absorbStop_good|]. intros ?.
  eapply triple_bind with (Q' := λ _, good sl).
  { eapply triple_conseq; [apply absorb_good|done|done|].
    intros σ [Hσ Hbad]. split; [done|]. left. intros Hs. apply Hbad. by constructor. }
  intros ?. eapply triple_bind
    with (Q' := λ out σ, good sl σ ∧ out = replicate (Z.to_nat size) 0).
  { intros σ Hσ. unfold make_ints. destruct (refused size); simpl; auto. }
  intros out σ [Hσ ->]. pose proof (squeeze_good sl (replicate (Z.to_nat size) 0) σ Hσ) as H.
  destruct (squeeze _ σ) as [vs σ'|]; [|done]. destruct H as (Hlen & _ & Hσ').
  split; [done|]. by rewrite Hlen, length_replicate.
Qed.

Lemma Sum_inv (d : digest.t) (b : list byte) :
  triple mem_inv (Sum d b) (λ out μ, mem_inv μ)
    (λ μ, mem_inv μ ∧
          (μ.(structs) !! d.(digest.s) = None ∨ ¬ absorbable d.(digest.size)
           ∨ refused d.(digest.size) = true)).
Proof.
  unfold Sum. intros μ Hμ. unfold bind at 1, load.
  destruct (μ.(structs) !! d.(digest.s)) as [st|] eqn:Hp; [|by auto].
  pose proof (on_local_inv st _ _ _ (λ sl, Sum_body_good sl d.(digest.size)) μ
                (conj Hμ (Hμ _ _ Hp))) as H.
  unfold bind at 1. destruct (on_local _ _ μ) as [out μ'|μ']; simpl; [tauto|].
  split; [tauto|]. right. tauto.
Qed.

Lemma xor_from_inv (c : stream.t) (src dst : list byte) (ix : nat) :
  triple mem_inv (xor_from c ix src dst) (λ _, mem_inv) mem_inv.
Proof.
  revert dst ix. induction src as [|v src IH]; intros dst ix; simpl.
  - by apply triple_ret.
  - eapply triple_bind with (Q' := λ _, mem_inv).
    + eapply triple_conseq;
        [apply (call_inv _ _ (λ _ _, True) False)|done|by intros ? ? []|by intros ? []].
      intros sl. eapply triple_conseq; [apply drip_good|done| |done].
      by intros ? ? (? & ? & ?).
    + intros x. destruct (decide _); [apply IH|]. by intros μ Hμ.
Qed.

Lemma XORKeyStream_inv (c : stream.t) (dst src : list byte) :
  triple mem_inv (XORKeyStream c dst src) (λ _, mem_inv) mem_inv.
Proof. apply xor_from_inv. Qed.

(** ** Runs of the public interface *)

Lemma triple_final {S A} (m : M S A) (I : S → Prop) (Q : A → S → Prop) (R : S → Prop) σ :
  triple I m Q R → (∀ x σ', Q x σ' → I σ') → (∀ σ', R σ' → I σ') →
  I σ → I (final (m σ)).
Proof.
  intros Hm HQ HR Hσ. specialize (Hm σ Hσ). destruct (m σ); simpl; eauto.
Qed.

Lemma exec_inv (c : api_call) μ : mem_inv μ → mem_inv (exec c μ).
Proof.
  intros Hμ. destruct c; simpl.
  - eapply triple_final; [apply NewStream_inv|done..].
  - eapply triple_final; [apply NewHash_inv|done..].
  - eapply triple_final; [apply XORKeyStream_inv|done..].
  - eapply triple_final; [apply Sum_inv|done|by intros ? []|done].
  - eapply triple_final; [apply Write_inv|done|by intros ? []|done].
  - eapply triple_final; [apply Reset_inv|done..].
Qed.

Lemma run_inv (calls : list api_call) : mem_inv (run calls).
Proof.
  unfold run. generalize mem_inv_empty. generalize empty_mem.
  induction calls as [|c calls IH]; intros μ Hμ; simpl; [done|].
  by apply IH, exec_inv.
Qed.

(** * The claims *)

(** C5. At every observable point, that is, in the memory left by any
    sequence of public calls from the empty memory (constructions, writes,
    sums, transforms and resets in any mix, panics included), every state
    struct refers to an array that holds each value of [0, n) exactly once:
    the array is a permutation of 0, 1, ..., n-1. *)
Theorem permutation_invariant (calls : list api_call) (p : ptr) (st : state) :
  (run calls).(structs) !! p = Some st →
  ∃ l arr, st.(s) = Some l ∧ (run calls).(arrays) !! l = Some arr ∧
           arr ≡ₚ seqZ 0 st.(n).
Proof.
  intros Hp. destruct (run_inv calls p st Hp) as (l & arr & Hs & Hl & Hg).
  exists l, arr. split_and!; [done..|].
  pose proof (good_n _ _ Hg) as Hn. simpl in Hn. rewrite Hn. apply Hg.
Qed.

Lemma permutation_invariant_witness :
  let calls := [CallNewHash 2; CallWrite (digest.mk 2 0%nat) ["a"%byte];
                CallSum (digest.mk 2 0%nat) []] in
  ∃ l arr, (with_a 2 (init_state 0)).(s) = Some l ∧
           (run calls).(arrays) !! l = Some arr ∧ arr ≡ₚ seqZ 0 256.
Proof.
  intros calls. apply (permutation_invariant calls 0%nat (with_a 2 (init_state 0))).
  vm_compute. reflexivity.
Defined.

(** C6. One call of update on a state of size n (registers and entries all
    below n) returns, and it has done exactly this, in this order:
    i = (i+w) mod n; y = (j + s[i]) mod n; j = (k + s[y]) mod n;
    k = (i + k + s[j]) mod n; then s[i] and s[j] are swapped. Every other
    array entry and the registers w, z and a (and n, and the slice header)
    are as they were. *)
Theorem update_round_exact (st : state) (arr : list Z) :
  sized (st, arr) →
  let i1 := (st.(i) + st.(w)) `mod` st.(n) in
  let y := (st.(j) + arr !!! Z.to_nat i1) `mod` st.(n) in
  let j1 := (st.(k) + arr !!! Z.to_nat y) `mod` st.(n) in
  let k1 := (i1 + st.(k) + arr !!! Z.to_nat j1) `mod` st.(n) in
  ∃ st' arr',
    update (st, arr) = Ok tt (st', arr') ∧
    st'.(i) = i1 ∧ st'.(j) = j1 ∧ st'.(k) = k1 ∧
    arr' !! Z.to_nat i1 = arr !! Z.to_nat j1 ∧
    arr' !! Z.to_nat j1 = arr !! Z.to_nat i1 ∧
    (∀ ix, ix ≠ Z.to_nat i1 → ix ≠ Z.to_nat j1 → arr' !! ix = arr !! ix) ∧
    length arr' = length arr ∧
    st'.(w) = st.(w) ∧ st'.(z) = st.(z) ∧ st'.(a) = st.(a) ∧
    st'.(n) = st.(n) ∧ st'.(s) = st.(s).
Proof.
  intros Hσ i1 y j1 k1. rewrite (update_ok _ Hσ). unfold update_round.
  fold i1. fold y. fold j1. fold k1.
  eexists _, _. split; [reflexivity|]. simpl.
  pose proof (sized_n _ Hσ) as Hn. pose proof (sized_len _ Hσ) as Hlen. simpl in *.
  assert (Hi1 : 0 ≤ i1 < st.(n)) by (apply Z.mod_pos_bound; lia).
  assert (Hj1 : 0 ≤ j1 < st.(n)) by (apply Z.mod_pos_bound; lia).
  assert (Hli : (Z.to_nat i1 < length arr)%nat) by lia.
  assert (Hlj : (Z.to_nat j1 < length arr)%nat) by lia.
  destruct (lookup_lt_is_Some_2 _ _ Hli) as [vi Hvi].
  destruct (lookup_lt_is_Some_2 _ _ Hlj) as [vj Hvj].
  rewrite (list_lookup_total_correct _ _ _ Hvi), (list_lookup_total_correct _ _ _ Hvj).
  split_and!; try done.
  - destruct (decide (Z.to_nat i1 = Z.to_nat j1)) as [Heq|Hne].
    + rewrite Heq, list_lookup_insert_eq by (rewrite length_insert; lia). congruence.
    + rewrite list_lookup_insert_ne, list_lookup_insert_eq by (done || lia). done.
  - rewrite list_lookup_insert_eq by (rewrite length_insert; lia). done.
  - intros ix H1 H2. by rewrite !list_lookup_insert_ne.
  - by rewrite !length_insert.
Qed.

Lemma update_round_exact_witness :
  ∃ st' arr',
    update (mkState 4 None 0 1 2 3 1 0, [2; 0; 3; 1]) = Ok tt (st', arr') ∧
    st'.(i) = 2 ∧ st'.(j) = 3 ∧ st'.(k) = 2 ∧
    arr' !! 2%nat = Some 1 ∧ arr' !! 3%nat = Some 3 ∧
    (∀ ix, ix ≠ 2%nat → ix ≠ 3%nat → arr' !! ix = [2; 0; 3; 1] !! ix) ∧
    length arr' = 4%nat ∧
    st'.(w) = 1 ∧ st'.(z) = 0 ∧ st'.(a) = 0 ∧ st'.(n) = 4 ∧ st'.(s) = None.
Proof.
  apply (update_round_exact (mkState 4 None 0 1 2 3 1 0) [2; 0; 3; 1]).
  constructor; simpl; try lia.
  intros [|[|[|[|ix]]]] v Hv; simpl in Hv; simplify_eq; lia.
Defined.

(** C10. initialize ignores its size parameter: whatever the argument, the
    struct behind the receiver becomes n = 256, a fresh array of length 256
    holding 0, 1, ..., 255 in order, i = j = k = z = a = 0 and w = 1. No
    sequence of public calls therefore leaves a state of another size. *)
Theorem initialize_ignores_size (p : ptr) (n_ : Z) (μ : mem) :
  is_Some (μ.(structs) !! p) →
  initialize p n_ μ =
    Ok tt (mkMem (<[p := mkState 256 (Some (length μ.(arrays))) 0 0 0 0 1 0]> μ.(structs))
                 (μ.(arrays) ++ [seqZ 0 256])) ∧
  (∀ n', initialize p n' μ = initialize p n_ μ) ∧
  (∀ calls q st, (run calls).(structs) !! q = Some st →
     st.(n) = 256 ∧ length (backing (run calls) st.(s)) = 256%nat).
Proof.
  intros Hp. split_and!.
  - by apply initialize_ok.
  - reflexivity.
  - intros calls q st Hq. destruct (run_inv calls q st Hq) as (l & arr & Hs & Hl & Hg).
    split; [apply Hg|]. rewrite (backing_ok _ _ _ _ Hs Hl). apply perm_length, Hg.
Qed.

Lemma initialize_ignores_size_witness :
  initialize 0%nat 7 (mkMem [zero_state] []) =
    Ok tt (mkMem [mkState 256 (Some 0%nat) 0 0 0 0 1 0] [seqZ 0 256]) ∧
  (∀ n', initialize 0%nat n' (mkMem [zero_state] []) =
         initialize 0%nat 7 (mkMem [zero_state] [])) ∧
  (∀ calls q st, (run calls).(structs) !! q = Some st →
     st.(n) = 256 ∧ length (backing (run calls) st.(s)) = 256%nat).
Proof.
  apply (initialize_ignores_size 0%nat 7 (mkMem [zero_state] [])).
  simpl. eauto.
Defined.

(** ** NewHash and a negative size *)

Lemma Sum_negative (d : digest.t) (b : list byte) μ :
  d.(digest.size) < 0 → ∃ μ', Sum d b μ = Panic μ'.
Proof.
  intros Hneg. unfold Sum. unfold bind at 1, load.
  destruct (μ.(structs) !! d.(digest.s)) as [st|]; [|by eauto].
  unfold bind at 1, on_local.
  assert (∃ σ', (absorbStop ;; absorb [d.(digest.size)] ;;
                 out <- make_ints d.(digest.size) ;; squeeze out)
                  (st, backing μ st.(s)) = Panic σ') as [σ' ->]; [|by eauto].
  unfold bind at 1. destruct (absorbStop _) as [? σ1|σ1]; [|by eauto].
  unfold bind at 1. destruct (absorb _ σ1) as [? σ2|σ2]; [|by eauto].
  unfold bind at 1. rewrite make_ints_refused by (by left).
  by eauto.
Qed.

(** C4, as the source has it. NewHash checks nothing: for a negative size
    too it returns a handle, with the size stored as given and a freshly
    initialised state, and Size reports that size. The size is rejected only
    by Sum, which panics on that handle in every memory. *)
Theorem NewHash_negative_size (size : Z) (μ : mem) :
  size < 0 →
  ∃ d μ',
    NewHash size μ = Ok d μ' ∧ Size d = size ∧
    μ'.(structs) !! d.(digest.s) = Some (init_state (length μ.(arrays))) ∧
    (∀ b μ1, ∃ μ2, Sum d b μ1 = Panic μ2).
Proof.
  intros Hneg. eexists _, _. split; [apply NewHash_ok|].
  split_and!; [done|apply lookup_snoc|].
  intros b μ1. by apply Sum_negative.
Qed.

Lemma NewHash_negative_size_witness :
  ∃ d μ',
    NewHash (-1) empty_mem = Ok d μ' ∧ Size d = -1 ∧
    μ'.(structs) !! d.(digest.s) = Some (init_state 0) ∧
    (∀ b μ1, ∃ μ2, Sum d b μ1 = Panic μ2).
Proof. apply (NewHash_negative_size (-1) empty_mem). lia. Defined.

(** C4, as stated, fails: NewHash(-1) returns a handle, and Write accepts
    it. *)
Lemma NewHash_negative_size_counterexample :
  ∃ d μ r μ',
    NewHash (-1) empty_mem = Ok d μ ∧ Size d = -1 ∧
    Write d ["a"%byte] μ = Ok r μ'.
Proof. eexists _, _, _, _. split_and!; [vm_compute; reflexivity|done|vm_compute; reflexivity]. Qed.

(** C9. From any state of size 256 in order, and for every key (of bytes,
    of any length), keySetup returns with a = 0; with the empty key and
    a = 0 at entry it returns the state untouched, the shuffle skipped. So
    the struct behind the handle that NewStream returns has a = 0. *)
Theorem keySetup_clean (key : list byte) (sl : slice) (σ : state * list Z) :
  good sl σ →
  (∃ σ', keySetup (int_of_byte <$> key) σ = Ok tt σ' ∧ σ'.1.(a) = 0) ∧
  (σ.1.(a) = 0 → keySetup [] σ = Ok tt σ) ∧
  (∀ μ, ∃ c μ' st, NewStream key μ = Ok c μ' ∧
          μ'.(structs) !! c.(stream.s) = Some st ∧ st.(a) = 0).
Proof.
  intros Hσ. split_and!.
  - pose proof (keySetup_good sl (int_of_byte <$> key) σ Hσ) as H.
    destruct (keySetup _ σ) as [[] σ'|σ'].
    + exists σ'. tauto.
    + destruct H as [_ []]. apply absorbable_bytes.
  - intros Ha. unfold keySetup, absorb, when. simpl. unfold bind, s_a, field.
    simpl. by rewrite Ha.
  - intros μ. destruct (key_schedule_ok key) as (σk & Hk & Hg & Ha).
    eexists _, _, _. split; [by apply NewStream_ok|].
    split; [apply lookup_snoc|done].
Qed.

Lemma keySetup_clean_witness :
  (∃ σ', keySetup (int_of_byte <$> ["k"%byte]) (init_state 0, seqZ 0 256) = Ok tt σ' ∧
         σ'.1.(a) = 0) ∧
  ((init_state 0, seqZ 0 256).1.(a) = 0 →
   keySetup [] (init_state 0, seqZ 0 256) = Ok tt (init_state 0, seqZ 0 256)) ∧
  (∀ μ, ∃ c μ' st, NewStream ["k"%byte] μ = Ok c μ' ∧
          μ'.(structs) !! c.(stream.s) = Some st ∧ st.(a) = 0).
Proof.
  apply (keySetup_clean ["k"%byte] (Some 0%nat) (init_state 0, seqZ 0 256)).
  constructor; simpl; first [reflexivity|lia].
Defined.

(** ** Sum works on the live array *)

(** Evaluate the left-hand side of an equation and read the result off. *)
Ltac evaluate :=
  lazymatch goal with
  | |- ?lhs = _ =>
      let v := eval vm_compute in lhs in
      transitivity v; [vm_cast_no_check (eq_refl v)|reflexivity]
  end.

(** Sum never assigns the struct behind the handle. *)
Lemma Sum_structs (d : digest.t) (b : list byte) μ :
  (final (Sum d b μ)).(structs) = μ.(structs).
Proof.
  unfold Sum. unfold bind at 1, load.
  destruct (μ.(structs) !! d.(digest.s)) as [st|]; [|done].
  unfold bind at 1, on_local.
  by destruct ((absorbStop ;; absorb [d.(digest.size)] ;;
                out <- make_ints d.(digest.size) ;; squeeze out)
                 (st, backing μ st.(s))).
Qed.

(** C1, at NewHash(32) followed by Sum(nil) twice. The local copy that Sum
    makes of the struct shares the backing array of the live state: the
    registers behind the handle are as before, the array is not, and the
    second Sum returns other bytes than the first. *)
Theorem Sum_disturbs_accumulator :
  ∃ d μ0 out1 μ1 out2 μ2,
    NewHash 32 empty_mem = Ok d μ0 ∧
    Sum d [] μ0 = Ok out1 μ1 ∧
    Sum d [] μ1 = Ok out2 μ2 ∧
    μ1.(structs) = μ0.(structs) ∧
    μ0.(arrays) = [seqZ 0 256] ∧
    μ1.(arrays) ≠ μ0.(arrays) ∧
    length out1 = 32%nat ∧ length out2 = 32%nat ∧
    out1 ≠ out2.
Proof.
  eexists _, _, _, _, _, _.
  split; [evaluate|]. split; [evaluate|]. split; [evaluate|].
  split_and!; try reflexivity; discriminate.
Qed.

(** C2, at size 32 with A = "a" and B = "b". The Sum between the two writes
    has stirred the array, so the second Sum does not return the digest of
    "ab". *)
Theorem Write_after_Sum_differs :
  ∃ out out',
    returns ((d <- NewHash 32 ;; Write d ["a"%byte] ;; Sum d [] ;;
              Write d ["b"%byte] ;; Sum d []) empty_mem) = Some out ∧
    returns ((d <- NewHash 32 ;; Write d ["a"%byte; "b"%byte] ;; Sum d [])
               empty_mem) = Some out' ∧
    out ≠ out'.
Proof.
  eexists _, _. split; [evaluate|]. split; [evaluate|]. discriminate.
Qed.

(** ** Method calls in sequence *)

Lemma bind_assoc {S A B C} (m : M S A) (f : A → M S B) (g : B → M S C) σ :
  bind (bind m f) g σ = bind m (λ x, bind (f x) g) σ.
Proof. unfold bind. by destruct (m σ). Qed.

Lemma bind_ext {S A B} (m : M S A) (f g : A → M S B) σ :
  (∀ x σ', f x σ' = g x σ') → bind m f σ = bind m g σ.
Proof. intros Hfg. unfold bind. by destruct (m σ). Qed.

Lemma bind_cong_l {S A B} (m m' : M S A) (f : A → M S B) σ :
  m σ = m' σ → bind m f σ = bind m' f σ.
Proof. unfold bind. by intros ->. Qed.

Lemma bind_ret_l {S A B} (x : A) (f : A → M S B) σ : bind (ret x) f σ = f x σ.
Proof. reflexivity. Qed.

Lemma forM_app {S A} (l1 l2 : list A) (body : A → M S unit) σ :
  forM_ (l1 ++ l2) body σ = (forM_ l1 body ;; forM_ l2 body) σ.
Proof.
  revert σ. induction l1 as [|x l1 IH]; intros σ; simpl; [done|].
  rewrite bind_assoc. apply bind_ext. intros _. apply IH.
Qed.

Lemma mem_eta μ : mkMem μ.(structs) μ.(arrays) = μ.
Proof. by destruct μ. Qed.

(** Two method calls on the same receiver, one after the other, are one call
    of the two bodies in sequence. *)
Lemma call_bind {A B} (p : ptr) (m : method A) (f : A → method B) μ st :
  μ.(structs) !! p = Some st → struct_ok μ.(arrays) st → header_blind m →
  call p (bind m f) μ = (x <- call p m ;; call p (f x)) μ.
Proof.
  intros Hp (l & arr & Hs & Hl & _) Hm.
  pose proof (header_kept m st arr Hm) as Hkept.
  unfold bind at 2. unfold call at 1 2. rewrite Hp.
  rewrite (backing_ok _ _ _ _ Hs Hl). unfold bind at 1.
  destruct (m (st, arr)) as [x [st1 arr1]|[st1 arr1]]; [|done].
  cbn [final fst snd] in Hkept. unfold call. cbn [structs arrays fst snd].
  rewrite list_lookup_insert_eq by by eapply lookup_lt_Some.
  rewrite Hkept, Hs. cbn [backing write_back arrays].
  rewrite list_lookup_insert_eq by by eapply lookup_lt_Some.
  cbn [default]. change (id arr1) with arr1.
  by destruct (f x (st1, arr1)) as [y [st2 arr2]|[st2 arr2]];
    cbn [fst snd]; rewrite !list_insert_insert_eq.
Qed.

(** A call of a body that does nothing leaves the memory as it is. *)
Lemma call_ret {A} (p : ptr) (x : A) μ st :
  μ.(structs) !! p = Some st → struct_ok μ.(arrays) st →
  call p (ret x) μ = Ok x μ.
Proof.
  intros Hp (l & arr & Hs & Hl & _). unfold call. rewrite Hp.
  rewrite (backing_ok _ _ _ _ Hs Hl), Hs. cbn [ret fst snd write_back].
  by rewrite !list_insert_id, mem_eta.
Qed.

Lemma call_ext {A} (p : ptr) (m m' : method A) μ :
  (∀ σ, m σ = m' σ) → call p m μ = call p m' μ.
Proof. intros Hm. unfold call. destruct (_ !! p); [|done]. by rewrite Hm. Qed.

(** Absorbing bytes through a live handle returns and keeps it alive. *)
Lemma call_absorb_ok (q : ptr) (p : list byte) μ :
  mem_inv μ → is_Some (μ.(structs) !! q) →
  ∃ μ', call q (absorb (int_of_byte <$> p)) μ = Ok tt μ' ∧
        mem_inv μ' ∧ is_Some (μ'.(structs) !! q).
Proof.
  intros Hμ [st Hq]. destruct (Hμ q st Hq) as (l & arr & Hs & Hl & Hg).
  pose proof (absorb_good (Some l) (int_of_byte <$> p) _ Hg) as H.
  destruct (absorb _ (st, arr)) as [[] σ'|σ'] eqn:Ha.
  - eexists. split; [|split].
    + eapply call_ok; [done|]. by rewrite (backing_ok _ _ _ _ Hs Hl).
    + apply commit_inv; [done..|]. by rewrite Hs.
    + cbn [structs]. rewrite list_lookup_insert_eq by by eapply lookup_lt_Some.
      eauto.
  - destruct H as [_ []]. apply absorbable_bytes.
Qed.

Lemma Write_then {B} (d : digest.t) (p : list byte) (k : M mem B) μ :
  (Write d p ;; k) μ = (call d.(digest.s) (absorb (int_of_byte <$> p)) ;; k) μ.
Proof. unfold Write. rewrite bind_assoc. by apply bind_ext. Qed.

Lemma write_chunks_then {B} (d : digest.t) (chunks : list (list byte)) (k : M mem B) μ :
  mem_inv μ → is_Some (μ.(structs) !! d.(digest.s)) →
  (write_chunks d chunks ;; k) μ =
  (call d.(digest.s) (absorb (int_of_byte <$> concat chunks)) ;; k) μ.
Proof.
  revert μ. induction chunks as [|c cs IH]; intros μ Hμ Hp.
  - destruct Hp as [st Hp]. simpl.
    by rewrite (bind_ok _ _ _ _ _ (call_ret _ tt _ _ Hp (Hμ _ _ Hp))).
  - unfold write_chunks. cbn [forM_ concat]. fold (write_chunks d cs).
    rewrite !bind_assoc, Write_then.
    destruct (call_absorb_ok _ c μ Hμ Hp) as (μ1 & Hc & Hμ1 & Hp1).
    rewrite (bind_ok _ _ _ _ _ Hc), bind_ret_l, (IH _ Hμ1 Hp1).
    destruct Hp as [st Hp].
    transitivity ((call d.(digest.s) (absorb (int_of_byte <$> c) ;;
                                      absorb (int_of_byte <$> concat cs)) ;; k) μ).
    + rewrite (bind_cong_l _ _ _ _ (call_bind _ _ _ _ _ Hp (Hμ _ _ Hp) (hb_absorb _))).
      by rewrite bind_assoc, (bind_ok _ _ _ _ _ Hc).
    + apply bind_cong_l, call_ext.
      intros σ. rewrite fmap_app. unfold absorb. by rewrite forM_app.
Qed.

(** C8. On a live handle in a memory in order, writing the chunks of a
    message in order and then calling Sum(nil) has the same outcome, the
    digest and the memory left, as writing the whole message in one call
    and then calling Sum(nil); this for every splitting in chunks (empty
    chunks included). *)
Theorem Write_chunk_independent (d : digest.t) (chunks : list (list byte)) (μ : mem) :
  mem_inv μ → is_Some (μ.(structs) !! d.(digest.s)) →
  (write_chunks d chunks ;; Sum d []) μ = (Write d (concat chunks) ;; Sum d []) μ.
Proof. intros Hμ Hp. by rewrite Write_then, write_chunks_then. Qed.

Lemma Write_chunk_independent_witness :
  let d := digest.mk 3 0%nat in
  let μ := mkMem [init_state 0] [seqZ 0 256] in
  (write_chunks d [["s"%byte; "p"%byte]; ["r"%byte]; ["i"%byte; "t"%byte; "z"%byte]] ;;
   Sum d []) μ =
  (Write d (concat [["s"%byte; "p"%byte]; ["r"%byte]; ["i"%byte; "t"%byte; "z"%byte]]) ;;
   Sum d []) μ.
Proof.
  intros d μ. apply (Write_chunk_independent d _ μ).
  - intros [|p] st Hp; simpl in Hp; simplify_eq.
    exists 0%nat, (seqZ 0 256). split_and!; [reflexivity..|].
    constructor; simpl; first [reflexivity|lia].
  - simpl. eauto.
Defined.

(** ** The keystream of a stream handle *)

Lemma hb_xor_body ix src dst : header_blind (xor_body ix src dst).
Proof.
  revert ix dst. induction src as [|v src IH]; intros ix dst; simpl; [apply hb_ret|].
  apply hb_bind; [apply hb_drip|]. intros x. destruct (decide _); [apply IH|apply hb_panic].
Qed.

Lemma call_live {A} (p : ptr) (m : method A) (Qv : A → Prop) μ :
  live μ p → (∀ sl, triple (good sl) m (λ x σ, Qv x ∧ good sl σ) (λ _, False)) →
  ∃ x μ', call p m μ = Ok x μ' ∧ Qv x ∧ live μ' p.
Proof.
  intros (st & Hp & l & arr & Hs & Hl & Hg) Hm. specialize (Hm _ _ Hg).
  destruct (m (st, arr)) as [x [st' arr']|] eqn:Hr; [|done]. destruct Hm as [Hx Hg'].
  eexists x, _. split; [|split; [done|]].
  - eapply call_ok; [done|]. by rewrite (backing_ok _ _ _ _ Hs Hl).
  - exists st'. cbn [structs arrays fst snd]. rewrite Hs. cbn [write_back]. split.
    + apply list_lookup_insert_eq. by eapply lookup_lt_Some.
    + exists l, arr'. split_and!; [apply Hg'| |done].
      apply list_lookup_insert_eq. by eapply lookup_lt_Some.
Qed.

Lemma call_panic_live {A} (p : ptr) μ : live μ p → call p (@panic _ A) μ = Panic μ.
Proof.
  intros (st & Hp & l & arr & Hs & Hl & _). unfold call. rewrite Hp.
  rewrite (backing_ok _ _ _ _ Hs Hl), Hs. cbn [panic fst snd write_back].
  by rewrite !list_insert_id, mem_eta.
Qed.

Lemma xor_from_call (c : stream.t) (ix : nat) (src dst : list byte) μ :
  live μ c.(stream.s) →
  xor_from c ix src dst μ = call c.(stream.s) (xor_body ix src dst) μ.
Proof.
  revert ix dst μ. induction src as [|v src IH]; intros ix dst μ Hlive.
  - destruct Hlive as (st & Hp & Hok). simpl. by rewrite (call_ret _ _ _ _ Hp Hok).
  - cbn [xor_from xor_body].
    destruct Hlive as (st & Hp & Hok).
    rewrite (call_bind _ _ _ _ _ Hp Hok hb_drip).
    destruct (call_live c.(stream.s) drip (λ _, True) μ) as (x & μ1 & Hc & _ & Hlive1).
    { by exists st. }
    { intros sl. eapply triple_conseq; [apply drip_good|done| |done].
      by intros ? ? (? & ? & ?). }
    rewrite !(bind_ok _ _ _ _ _ Hc).
    destruct (decide _); [by apply IH|]. by rewrite call_panic_live.
Qed.

(** A call seen from the registers and the array contents alone. *)
Lemma call_view {A} (p : ptr) (m : method A) μ st l arr :
  μ.(structs) !! p = Some st → st.(s) = Some l → μ.(arrays) !! l = Some arr →
  header_blind m →
  call p m μ =
    match m (with_s None st, arr) with
    | Ok x σ' => Ok x (mkMem (<[p := with_s (Some l) σ'.1]> μ.(structs))
                             (<[l := σ'.2]> μ.(arrays)))
    | Panic σ' => Panic (mkMem (<[p := with_s (Some l) σ'.1]> μ.(structs))
                               (<[l := σ'.2]> μ.(arrays)))
    end.
Proof.
  intros Hp Hs Hl Hm. unfold call. rewrite Hp, (backing_ok _ _ _ _ Hs Hl), Hs.
  rewrite <- (with_s_same st) at 1. rewrite Hs.
  rewrite <- (with_s_with_s (Some l) None st), Hm.
  by destruct (m (with_s None st, arr)) as [x [st' arr']|[st' arr']].
Qed.

Lemma xor_body_good sl (ix : nat) (src dst : list byte) :
  (ix + length src ≤ length dst)%nat →
  triple (good sl) (xor_body ix src dst)
    (λ out σ, length out = length dst ∧ good sl σ) (λ _, False).
Proof.
  revert ix dst. induction src as [|v src IH]; intros ix dst Hlen; simpl in *.
  - by apply triple_ret.
  - eapply triple_bind with (Q' := λ _, good sl).
    { eapply triple_conseq; [apply drip_good|done| |done]. by intros ? ? (? & ? & ?). }
    intros x. destruct (decide _); [|lia].
    eapply triple_conseq; [apply IH|done| |done].
    + rewrite length_insert. lia.
    + intros out σ [Hout Hσ]. by rewrite length_insert in Hout.
Qed.

(** A transform through a handle whose struct and array hold [σ], in any
    memory and behind any addresses, is the loop run on [σ]. *)
Lemma stream_run (p : ptr) (l : nat) sl σ μ (dst src : list byte) :
  good sl σ →
  μ.(structs) !! p = Some (with_s (Some l) σ.1) → μ.(arrays) !! l = Some σ.2 →
  XORKeyStream (stream.mk p) dst src μ =
    match xor_body 0 src dst (with_s None σ.1, σ.2) with
    | Ok x σ' => Ok x (mkMem (<[p := with_s (Some l) σ'.1]> μ.(structs))
                             (<[l := σ'.2]> μ.(arrays)))
    | Panic σ' => Panic (mkMem (<[p := with_s (Some l) σ'.1]> μ.(structs))
                               (<[l := σ'.2]> μ.(arrays)))
    end.
Proof.
  intros Hg Hp Hl. unfold XORKeyStream. rewrite xor_from_call.
  - by rewrite (call_view _ _ _ _ _ _ Hp eq_refl Hl (hb_xor_body _ _ _)).
  - eexists. split; [exact Hp|]. exists l, σ.2.
    split_and!; [done..|]. by eapply good_reheader.
Qed.

(** C7. For every key and in every memory, two stream ciphers constructed
    from the key one after the other are distinct instances and give the
    same bytes: the transforms of the same source into the same destination
    return the same contents (or both panic, the destination being too
    short), the second instance being used after the first; in particular
    their keystreams over m bytes are the same m bytes. The same holds of
    two instances constructed in unrelated memories. *)
Theorem keystream_deterministic (key : list byte) (μ : mem) :
  ∃ c1 μ1 c2 μ2,
    NewStream key μ = Ok c1 μ1 ∧ NewStream key μ1 = Ok c2 μ2 ∧
    c1.(stream.s) ≠ c2.(stream.s) ∧
    (∀ dst src,
       returns (XORKeyStream c2 dst src (final (XORKeyStream c1 dst src μ2))) =
       returns (XORKeyStream c1 dst src μ2)) ∧
    (∀ m, ∃ ks μ3 μ4,
       keystream c1 m μ2 = Ok ks μ3 ∧ keystream c2 m μ3 = Ok ks μ4 ∧
       length ks = m) ∧
    (∀ μ' dst src, ∃ c' μ1',
       NewStream key μ' = Ok c' μ1' ∧
       returns (XORKeyStream c' dst src μ1') = returns (XORKeyStream c1 dst src μ1)).
Proof.
  destruct (key_schedule_ok key) as (σ & Hk & Hg & _).
  set (P := length μ.(structs)). set (L := length μ.(arrays)).
  set (st1 := with_s (Some L) σ.1). set (st2 := with_s (Some (S L)) σ.1).
  set (μ1 := mkMem (μ.(structs) ++ [st1]) (μ.(arrays) ++ [σ.2])).
  set (μ2 := mkMem ((μ.(structs) ++ [st1]) ++ [st2]) ((μ.(arrays) ++ [σ.2]) ++ [σ.2])).
  assert (H1 : NewStream key μ = Ok (stream.mk P) μ1) by by apply NewStream_ok.
  assert (H2 : NewStream key μ1 = Ok (stream.mk (S P)) μ2).
  { rewrite (NewStream_ok _ μ1 _ Hk). unfold μ1, μ2, st2, P, L. cbn [structs arrays].
    by rewrite !length_app, !Nat.add_1_r. }
  assert (Hp1 : μ2.(structs) !! P = Some st1).
  { unfold μ2. cbn [structs]. rewrite lookup_app_l by (rewrite length_app; simpl; lia).
    apply lookup_snoc. }
  assert (Hl1 : μ2.(arrays) !! L = Some σ.2).
  { unfold μ2. cbn [arrays]. rewrite lookup_app_l by (rewrite length_app; simpl; lia).
    apply lookup_snoc. }
  assert (Hp2 : μ2.(structs) !! S P = Some st2).
  { unfold μ2, P. cbn [structs]. rewrite <- Nat.add_1_r, <- (length_app _ [st1]).
    apply lookup_snoc. }
  assert (Hl2 : μ2.(arrays) !! S L = Some σ.2).
  { unfold μ2, L. cbn [arrays]. rewrite <- Nat.add_1_r, <- (length_app _ [σ.2]).
    apply lookup_snoc. }
  assert (Hsecond : ∀ dst src,
    XORKeyStream (stream.mk (S P)) dst src
      (final (XORKeyStream (stream.mk P) dst src μ2)) =
    match xor_body 0 src dst (with_s None σ.1, σ.2) with
    | Ok x σ' => Ok x (mkMem (<[S P := with_s (Some (S L)) σ'.1]>
                                (final (XORKeyStream (stream.mk P) dst src μ2)).(structs))
                             (<[S L := σ'.2]>
                                (final (XORKeyStream (stream.mk P) dst src μ2)).(arrays)))
    | Panic σ' => Panic (mkMem (<[S P := with_s (Some (S L)) σ'.1]>
                                (final (XORKeyStream (stream.mk P) dst src μ2)).(structs))
                             (<[S L := σ'.2]>
                                (final (XORKeyStream (stream.mk P) dst src μ2)).(arrays)))
    end).
  { intros dst src. apply (stream_run _ _ _ _ _ _ _ Hg).
    - rewrite (stream_run _ _ _ _ _ dst src Hg Hp1 Hl1).
      destruct (xor_body _ _ _ _); cbn [final structs];
        by rewrite list_lookup_insert_ne by lia.
    - rewrite (stream_run _ _ _ _ _ dst src Hg Hp1 Hl1).
      destruct (xor_body _ _ _ _); cbn [final arrays];
        by rewrite list_lookup_insert_ne by lia. }
  exists (stream.mk P), μ1, (stream.mk (S P)), μ2.
  split_and!; [done|done|simpl; lia|..].
  - intros dst src. rewrite Hsecond, (stream_run _ _ _ _ _ dst src Hg Hp1 Hl1).
    by destruct (xor_body _ _ _ _).
  - intros m. unfold keystream.
    pose proof (Hsecond (replicate m x00) (replicate m x00)) as Hs2.
    rewrite (stream_run _ _ _ _ _ _ _ Hg Hp1 Hl1) in Hs2 |- *.
    pose proof (xor_body_good None 0 (replicate m x00) (replicate m x00)
                  (le_n _) _ (good_reheader _ None _ Hg)) as Hr.
    destruct (xor_body _ _ _ _) as [ks σ'|]; [|done].
    eexists ks, _, _. cbn [final] in Hs2. split_and!; [reflexivity|exact Hs2|].
    destruct Hr as [-> _]. apply length_replicate.
  - intros μ' dst src. eexists _, _. split; [by apply NewStream_ok|].
    erewrite (stream_run _ _ _ _ _ dst src Hg); [|apply lookup_snoc..].
    erewrite (stream_run P L _ _ μ1 dst src Hg); [|apply lookup_snoc..].
    by destruct (xor_body _ _ _ _).
Qed.

(** ** The size absorbed by Sum *)

(** C3, as stated, fails. The high part of the absorbed size is size/16,
    which for sizes above 255 is no nibble: absorbing 256 leaves another
    array than absorbing 0, and the one-byte digest of the empty message is
    not the first byte of its 257-byte digest. *)
Lemma size_alias_256_counterexample :
  returns (absorb [0 + 256] (init_state 0, seqZ 0 256)) = Some tt ∧
  (final (absorb [0 + 256] (init_state 0, seqZ 0 256))).2 ≠
  (final (absorb [0] (init_state 0, seqZ 0 256))).2 ∧
  ∃ out out',
    digest_of empty_mem 1 [] = Some out ∧
    digest_of empty_mem (1 + 256) [] = Some out' ∧
    take 1 out' ≠ out.
Proof.
  split; [vm_compute; reflexivity|]. split; [vm_compute; discriminate|].
  eexists _, _. split; [evaluate|]. split; [evaluate|]. discriminate.
Qed.

Lemma bind_ret_r {S A} (m : M S A) σ : bind m ret σ = m σ.
Proof. unfold bind. by destruct (m σ). Qed.

Lemma mapM_app {S A B} (body : A → M S B) (l1 l2 : list A) σ :
  mapM body (l1 ++ l2) σ =
  (vs1 <- mapM body l1 ;; vs2 <- mapM body l2 ;; ret (vs1 ++ vs2)) σ.
Proof.
  revert σ. induction l1 as [|x l1 IH]; intros σ; simpl.
  - by rewrite bind_ret_l, bind_ret_r.
  - rewrite bind_assoc. apply bind_ext. intros y σ'.
    rewrite (bind_cong_l _ _ _ _ (IH σ')), !bind_assoc.
    apply bind_ext. intros vs1 σ''. by rewrite bind_assoc.
Qed.

(** Continuations that agree after every return of [m] from [P]. *)
Lemma bind_ext_triple {S A B} (m : M S A) (f g : A → M S B) P Q R σ :
  triple P m Q R → (∀ x σ', Q x σ' → f x σ' = g x σ') → P σ →
  bind m f σ = bind m g σ.
Proof.
  intros Hm Hfg Hσ. specialize (Hm σ Hσ). unfold bind.
  destruct (m σ); [by apply Hfg|done].
Qed.

Lemma evals_nibble_slot sl σ (x : Z) :
  good sl σ → evals ((s_n /ᵢ ret 2 +ᵢ ret x) %ᵢ s_n) σ (nibble_slot x).
Proof.
  intros Hσ. pose proof (evals_half _ _ Hσ) as Hhalf.
  assert (evals ((s_n /ᵢ ret 2 +ᵢ ret x) %ᵢ s_n) σ (Z.rem (int_add 128 x) σ.1.(n))) as H.
  { apply evals_rem; [apply evals_lift2; [exact Hhalf|ev]|ev|].
    rewrite (good_n _ _ Hσ). lia. }
  by rewrite (good_n _ _ Hσ) in H.
Qed.

Lemma nibble_slot_alias (x t : Z) :
  0 ≤ x → 0 ≤ t → x + 256 * t < 2 ^ 62 →
  nibble_slot (x + 256 * t) = nibble_slot x.
Proof.
  intros Hx Ht Hlt. unfold nibble_slot.
  rewrite !int_add_small, !rem_256 by lia.
  replace (128 + (x + 256 * t)) with (128 + x + t * 256) by lia.
  apply Z.mod_add. lia.
Qed.

Lemma absorbNibble_alias sl σ (x t : Z) :
  good sl σ → 0 ≤ x → 0 ≤ t → x + 256 * t < 2 ^ 62 →
  absorbNibble (x + 256 * t) σ = absorbNibble x σ.
Proof.
  intros Hσ Hx Ht Hlt. unfold absorbNibble.
  eapply bind_ext_triple; [apply when_half_good| |exact Hσ].
  intros ? σ' Hσ'. cbv beta.
  rewrite (bind_evals _ _ _ _ (evals_nibble_slot sl σ' _ Hσ')).
  rewrite (bind_evals _ _ _ _ (evals_nibble_slot sl σ' x Hσ')).
  by rewrite nibble_slot_alias.
Qed.

Lemma evals_sixteenth sl σ : good sl σ → evals (s_n /ᵢ ret 16) σ 16.
Proof.
  intros Hσ.
  assert (evals (s_n /ᵢ ret 16) σ (wrap (Z.quot σ.1.(n) 16))) as H by ev.
  by rewrite (good_n _ _ Hσ), sixteenth_256 in H.
Qed.

Lemma absorbValue_alias sl σ (b t : Z) :
  good sl σ → 0 ≤ b → 0 ≤ t → b + 4096 * t < 2 ^ 63 →
  absorbValue (b + 4096 * t) σ = absorbValue b σ.
Proof.
  intros Hσ Hb Ht Hlt. unfold absorbValue.
  rewrite !(bind_evals _ _ _ _ (evals_sixteenth sl σ Hσ)).
  rewrite (bind_evals (ret (b + 4096 * t) %ᵢ ret 16) _ σ (Z.rem (b + 4096 * t) 16)) by ev.
  rewrite (bind_evals (ret b %ᵢ ret 16) _ σ (Z.rem b 16)) by ev.
  assert (Z.rem (b + 4096 * t) 16 = Z.rem b 16) as ->.
  { rewrite !Z.rem_mod_nonneg by lia.
    replace (b + 4096 * t) with (b + (256 * t) * 16) by lia. apply Z.mod_add. lia. }
  eapply bind_ext_triple; [apply absorbNibble_good| |exact Hσ].
  intros ? σ' Hσ'. cbv beta.
  rewrite (bind_evals (ret (b + 4096 * t) /ᵢ ret 16) _ σ'
             (wrap (Z.quot (b + 4096 * t) 16))) by ev.
  rewrite (bind_evals (ret b /ᵢ ret 16) _ σ' (wrap (Z.quot b 16))) by ev.
  assert (0 ≤ b `div` 16 ∧ b `div` 16 + 256 * t < 2 ^ 60) as [Hq Hqlt].
  { split; [apply Z.div_pos; lia|].
    replace (b `div` 16 + 256 * t) with ((b + 4096 * t) `div` 16).
    - apply Z.div_lt_upper_bound; lia.
    - replace (b + 4096 * t) with (b + (256 * t) * 16) by lia.
      rewrite Z.div_add by lia. lia. }
  rewrite !quot_nonneg by lia.
  replace (b + 4096 * t) with (b + (256 * t) * 16) by lia.
  rewrite Z.div_add, !wrap_small by lia.
  apply (absorbNibble_alias sl); done || lia.
Qed.

Lemma absorb_alias sl σ (b t : Z) :
  good sl σ → 0 ≤ b → 0 ≤ t → b + 4096 * t < 2 ^ 63 →
  absorb [b + 4096 * t] σ = absorb [b] σ.
Proof.
  intros Hσ Hb Ht Hlt. unfold absorb. cbn [forM_].
  by rewrite (bind_cong_l _ _ _ _ (absorbValue_alias sl σ b t Hσ Hb Ht Hlt)).
Qed.

Lemma mapM_drip_ok sl σ (out : list Z) :
  good sl σ →
  ∃ vs σ', mapM (λ _, drip) out σ = Ok vs σ' ∧ length vs = length out ∧ good sl σ'.
Proof.
  intros Hσ.
  pose proof (triple_mapM out (λ _ : Z, drip) (good sl) (λ _, True) (λ _, False)) as H.
  specialize (H (λ _ _, triple_conseq _ _ _ _ _ _ _ (drip_good sl)
    (λ _ H, H) (λ _ _ H, conj I (proj1 (proj2 H))) (λ _ H, H)) σ Hσ).
  destruct (mapM _ out σ) as [vs σ'|]; [|done]. exists vs, σ'. tauto.
Qed.

(** The body of Sum for two sizes 4096 t apart, from the same state. *)
Lemma Sum_body_alias sl σ (size t : Z) :
  good sl σ → 0 ≤ size → 0 ≤ t → 8 * (size + 4096 * t) ≤ maxAlloc →
  ∃ out more σ1 σ2,
    (absorbStop ;; absorb [size] ;; out <- make_ints size ;; squeeze out) σ
      = Ok out σ1 ∧
    (absorbStop ;; absorb [size + 4096 * t] ;;
     out <- make_ints (size + 4096 * t) ;; squeeze out) σ
      = Ok (out ++ more) σ2 ∧
    length out = Z.to_nat size ∧ length more = Z.to_nat (4096 * t).
Proof.
  intros Hσ Hsize Ht Hmax.
  assert (size + 4096 * t < 2 ^ 63) as Hlt by (unfold maxAlloc in Hmax; lia).
  pose proof (absorbStop_good sl σ Hσ) as Ha.
  destruct (absorbStop σ) as [[] σa|] eqn:Hstop; [|done].
  pose proof (absorb_good sl [size] σa Ha) as Hb.
  destruct (absorb [size] σa) as [[] σb|] eqn:Habs.
  2: { destruct Hb as [_ []]. constructor; [|done]. apply absorbable_nonneg. lia. }
  pose proof (when_pending_good sl σb Hb) as Hc.
  destruct (when (s_a >ᵢ ret 0) shuffle σb) as [[] σc|] eqn:Hwhen; [|done].
  destruct Hc as [Hc _].
  destruct (mapM_drip_ok sl σc (replicate (Z.to_nat size) 0) Hc) as (vs1 & σd & H1 & Hl1 & Hd).
  destruct (mapM_drip_ok sl σd (replicate (Z.to_nat (4096 * t)) 0) Hd)
    as (vs2 & σe & H2 & Hl2 & _).
  rewrite length_replicate in Hl1, Hl2.
  exists vs1, vs2, σd, σe. split_and!; [| |done..].
  - rewrite (bind_ok _ _ _ _ _ Hstop), (bind_ok _ _ _ _ _ Habs).
    rewrite (bind_ok _ _ _ _ _ (make_ints_ok size σb Hsize ltac:(lia))).
    unfold squeeze. by rewrite (bind_ok _ _ _ _ _ Hwhen).
  - rewrite (bind_ok _ _ _ _ _ Hstop).
    rewrite (bind_cong_l _ _ _ _ (absorb_alias sl σa size t Ha Hsize Ht Hlt)).
    rewrite (bind_ok _ _ _ _ _ Habs).
    rewrite (bind_ok _ _ _ _ _ (make_ints_ok (size + 4096 * t) σb ltac:(lia) Hmax)).
    unfold squeeze. rewrite (bind_ok _ _ _ _ _ Hwhen).
    rewrite Z2Nat.inj_add, replicate_add, mapM_app by lia.
    by rewrite (bind_ok _ _ _ _ _ H1), (bind_ok _ _ _ _ _ H2).
Qed.

(** The two nibbles of an absorbed value. *)
Lemma absorbValue_nibbles sl σ (b : Z) :
  good sl σ → 0 ≤ b < 2 ^ 63 →
  absorbValue b σ = (absorbNibble (b `mod` 16) ;; absorbNibble (b `div` 16)) σ.
Proof.
  intros Hσ Hb. unfold absorbValue.
  rewrite (bind_evals _ _ _ _ (evals_sixteenth sl σ Hσ)).
  rewrite (bind_evals (ret b %ᵢ ret 16) _ σ (Z.rem b 16)) by ev.
  rewrite Z.rem_mod_nonneg by lia.
  apply bind_ext. intros ? σ'.
  rewrite (bind_evals (ret b /ᵢ ret 16) _ σ' (wrap (Z.quot b 16))) by ev.
  assert (0 ≤ b `div` 16 < 2 ^ 60).
  { split; [apply Z.div_pos; lia|apply Z.div_lt_upper_bound; lia]. }
  by rewrite quot_nonneg, wrap_small by lia.
Qed.

(** What absorbNibble does after its shuffle, if any: one swap, at the
    position (128 + x) mod 256. *)
Lemma absorbNibble_swap sl σ :
  good sl σ →
  ∃ st arr,
    good sl (st, arr) ∧
    ∀ x, 0 ≤ x < 2 ^ 62 →
      absorbNibble x σ =
        Ok tt (with_a ((st.(a) + 1) `mod` 256) st,
               swap_at st.(a) ((128 + x) `mod` 256) arr).
Proof.
  intros Hσ. pose proof (when_half_good sl σ Hσ) as Hg.
  destruct (when (s_a ==ᵢ s_n /ᵢ ret 2) shuffle σ) as [[] [st arr]|] eqn:Hwhen; [|done].
  exists st, arr. split; [done|].
  intros x Hx. unfold absorbNibble.
  rewrite (bind_ok _ _ _ _ _ Hwhen).
  rewrite (bind_evals _ _ _ _ (evals_nibble_slot sl _ x Hg)).
  unfold nibble_slot. rewrite int_add_small, rem_256 by lia.
  pose proof (mod_256_range (128 + x)) as Hy.
  destruct Hg as [Hs Hn Hp Ha0 Hi Hj Hk Hw Hz]. simpl in *.
  pose proof (perm_length _ Hp) as Hlen.
  unfold s_a, s_n, set_a. step. step. step; [|rewrite length_insert; lia]. step.
  by rewrite int_add_small, Hn, rem_256 by lia.
Qed.

Lemma swap_at_first (p q : Z) (arr : list Z) :
  (Z.to_nat p < length arr)%nat → (Z.to_nat q < length arr)%nat →
  swap_at p q arr !!! Z.to_nat p = arr !!! Z.to_nat q.
Proof.
  intros Hp Hq. unfold swap_at.
  destruct (decide (Z.to_nat q = Z.to_nat p)) as [Heq|Hne].
  - rewrite Heq. rewrite list_lookup_total_alt, list_lookup_insert_eq
      by (by rewrite length_insert). done.
  - rewrite !list_lookup_total_alt, list_lookup_insert_ne, list_lookup_insert_eq by done.
    done.
Qed.

(** The entries of the array are pairwise different. *)
Lemma perm_inj (arr : list Z) (p q : Z) :
  arr ≡ₚ seqZ 0 256 → 0 ≤ p < 256 → 0 ≤ q < 256 →
  arr !!! Z.to_nat p = arr !!! Z.to_nat q → p = q.
Proof.
  intros Hperm Hp Hq Heq. pose proof (perm_length _ Hperm) as Hlen.
  assert (NoDup arr) as Hnd by (rewrite Hperm; apply NoDup_seqZ).
  destruct (lookup_lt_is_Some_2 arr (Z.to_nat p) ltac:(lia)) as [v Hv].
  destruct (lookup_lt_is_Some_2 arr (Z.to_nat q) ltac:(lia)) as [v' Hv'].
  rewrite !list_lookup_total_alt, Hv, Hv' in Heq. simpl in Heq. subst v'.
  pose proof (NoDup_lookup _ _ _ _ Hnd Hv Hv'). lia.
Qed.

(** Two values 256 apart are absorbed differently: the high parts are 16
    apart and are swapped to different positions. *)
Lemma absorb_256_apart sl σ (b : Z) :
  good sl σ → 0 ≤ b → b + 256 < 2 ^ 63 →
  ∃ σ1 σ2, absorb [b] σ = Ok tt σ1 ∧ absorb [b + 256] σ = Ok tt σ2 ∧
           σ1.1 = σ2.1 ∧ σ1.2 ≠ σ2.2.
Proof.
  intros Hσ Hb Hlt. unfold absorb. cbn [forM_].
  assert ((b + 256) `mod` 16 = b `mod` 16) as Hlo.
  { replace (b + 256) with (b + 16 * 16) by lia. apply Z.mod_add. lia. }
  assert ((b + 256) `div` 16 = b `div` 16 + 16) as Hhi.
  { replace (b + 256) with (b + 16 * 16) by lia. apply Z.div_add. lia. }
  assert (0 ≤ b `div` 16 < 2 ^ 59) as Hq.
  { split; [apply Z.div_pos; lia|apply Z.div_lt_upper_bound; lia]. }
  pose proof (absorbNibble_good sl (b `mod` 16) σ Hσ) as Ha.
  destruct (absorbNibble (b `mod` 16) σ) as [[] σa|] eqn:Hfirst.
  2: { destruct Ha as [_ Hneg]. pose proof (Z.mod_pos_bound b 16 ltac:(lia)).
       unfold nibble_slot in Hneg. rewrite int_add_small, rem_256 in Hneg by lia.
       pose proof (mod_256_range (128 + b `mod` 16)). lia. }
  destruct (absorbNibble_swap sl σa Ha) as (st & arr & Hg & Hswap).
  pose proof (mod_256_range (128 + b `div` 16)) as Hy1.
  pose proof (mod_256_range (128 + (b `div` 16 + 16))) as Hy2.
  eexists _, _. split_and!.
  - unfold bind at 1. rewrite (absorbValue_nibbles sl) by (done || lia).
    rewrite (bind_ok _ _ _ _ _ Hfirst), (Hswap (b `div` 16)) by lia. reflexivity.
  - unfold bind at 1. rewrite (absorbValue_nibbles sl) by (done || lia).
    rewrite Hlo, Hhi, (bind_ok _ _ _ _ _ Hfirst), (Hswap (b `div` 16 + 16)) by lia.
    reflexivity.
  - reflexivity.
  - cbn [snd]. intros Heq.
    destruct Hg as [Hs Hn Hp Ha0 Hi Hj Hk Hw Hz]. simpl in *.
    pose proof (perm_length _ Hp) as Hlen.
    assert (arr !!! Z.to_nat ((128 + b `div` 16) `mod` 256) =
            arr !!! Z.to_nat ((128 + (b `div` 16 + 16)) `mod` 256)) as Hent.
    { rewrite <- (swap_at_first st.(a) _ arr), <- (swap_at_first st.(a) _ arr) by lia.
      by rewrite Heq. }
    apply (perm_inj _ _ _ Hp Hy1 Hy2) in Hent.
    replace (128 + (b `div` 16 + 16)) with (128 + b `div` 16 + 16) in Hent by lia.
    rewrite <- (Zplus_mod_idemp_l (128 + b `div` 16) 16) in Hent.
    set (y := (128 + b `div` 16) `mod` 256) in *.
    assert (y + 16 < 256 ∨ 256 ≤ y + 16) as [Hsmall|Hbig] by lia.
    + rewrite Z.mod_small in Hent; lia.
    + replace (y + 16) with (y + 16 - 256 + 1 * 256) in Hent by lia.
      rewrite Z.mod_add, Z.mod_small in Hent; lia.
Qed.

(** C3, as the source has it. The size is absorbed as size mod 16 and then
    size/16, and the latter enters only through (128 + size/16) mod 256.
    For two non-negative sizes 4096 t apart, both within what make accepts
    (8 bytes per element, at most maxAlloc bytes): every state in order
    absorbs them alike, and for the same message, on accumulators
    constructed in the same memory, the digest of the smaller size is the
    leading part of the digest of the larger one, which is 4096 t bytes
    longer. Sizes 256 apart are not aliased: every state in order absorbs
    size and size + 256 into different arrays, the registers being the
    same. *)
Theorem size_alias_4096 (size t : Z) (msg : list byte) (μ : mem) :
  0 ≤ size → 0 ≤ t → 8 * (size + 4096 * t) ≤ maxAlloc →
  (∀ sl σ, good sl σ → absorb [size + 4096 * t] σ = absorb [size] σ) ∧
  (∃ out more,
    digest_of μ size msg = Some out ∧
    digest_of μ (size + 4096 * t) msg = Some (out ++ more) ∧
    length out = Z.to_nat size ∧ length more = Z.to_nat (4096 * t)) ∧
  (∀ sl σ, good sl σ →
     ∃ σ1 σ2, absorb [size] σ = Ok tt σ1 ∧ absorb [size + 256] σ = Ok tt σ2 ∧
              σ1.1 = σ2.1 ∧ σ1.2 ≠ σ2.2).
Proof.
  intros Hsize Ht Hmax.
  assert (size + 4096 * t < 2 ^ 63) as Hlt by (unfold maxAlloc in Hmax; lia).
  split.
  { intros sl σ Hσ. by apply (absorb_alias sl). }
  split.
  2: { intros sl σ Hσ. apply (absorb_256_apart sl); [done..|].
       unfold maxAlloc in Hmax. lia. }
  unfold digest_of.
  set (μ0 := mkMem (μ.(structs) ++ [init_state (length μ.(arrays))])
                   (μ.(arrays) ++ [seqZ 0 256])).
  set (P := length μ.(structs)).
  assert (Hμ0 : live μ0 P).
  { exists (init_state (length μ.(arrays))). split; [apply lookup_snoc|].
    exists (length μ.(arrays)), (seqZ 0 256).
    split_and!; [done|apply lookup_snoc|apply good_init]. }
  destruct (call_live P (absorb (int_of_byte <$> msg)) (λ _, True) μ0 Hμ0)
    as ([] & μw & Hw & _ & (st & Hp & l & arr & Hs & Hl & Hg)).
  { intros sl. eapply triple_conseq; [apply absorb_good|done|by intros ? ? ?|].
    intros σ [_ []]. apply absorbable_bytes. }
  destruct (Sum_body_alias _ _ size t Hg Hsize Ht Hmax)
    as (out & more & σ1 & σ2 & H1 & H2 & Hl1 & Hl2).
  exists (byte_of_int <$> out), (byte_of_int <$> more).
  rewrite !length_fmap. split_and!; [| |done..].
  - rewrite (bind_ok _ _ _ _ _ (NewHash_ok size μ)). fold μ0 P.
    rewrite Write_then. cbn [digest.s]. rewrite (bind_ok _ _ _ _ _ Hw).
    unfold Sum, load. cbn [digest.s digest.size]. unfold bind at 1. rewrite Hp.
    unfold bind at 1, on_local. rewrite (backing_ok _ _ _ _ Hs Hl), H1. done.
  - rewrite (bind_ok _ _ _ _ _ (NewHash_ok _ μ)). fold μ0 P.
    rewrite Write_then. cbn [digest.s]. rewrite (bind_ok _ _ _ _ _ Hw).
    unfold Sum, load. cbn [digest.s digest.size]. unfold bind at 1. rewrite Hp.
    unfold bind at 1, on_local. rewrite (backing_ok _ _ _ _ Hs Hl), H2.
    cbn [returns ret]. by rewrite fmap_app.
Qed.

Lemma size_alias_4096_witness :
  (∀ sl σ, good sl σ → absorb [1 + 4096 * 1] σ = absorb [1] σ) ∧
  (∃ out more,
    digest_of empty_mem 1 ["a"%byte] = Some out ∧
    digest_of empty_mem (1 + 4096 * 1) ["a"%byte] = Some (out ++ more) ∧
    length out = Z.to_nat 1 ∧ length more = Z.to_nat (4096 * 1)) ∧
  (∀ sl σ, good sl σ →
     ∃ σ1 σ2, absorb [1] σ = Ok tt σ1 ∧ absorb [1 + 256] σ = Ok tt σ2 ∧
              σ1.1 = σ2.1 ∧ σ1.2 ≠ σ2.2).
Proof. apply (size_alias_4096 1 1 ["a"%byte] empty_mem); unfold maxAlloc; lia. Defined.

(** * Further properties of the code *)

(** A state of size 256 in order, and a live handle on the freshly
    initialised state. *)
Ltac in_order := constructor; simpl; first [reflexivity | lia].
Ltac fresh_live :=
  exists (init_state 0); split; [reflexivity|];
  exists 0%nat, (seqZ 0 256); split_and!; [reflexivity..|in_order].

(** ** Bytes and xor *)

Lemma byte_of_int_of_byte (v : byte) : byte_of_int (int_of_byte v) = v.
Proof.
  unfold byte_of_int. pose proof (int_of_byte_range v).
  rewrite Z.mod_small by lia. unfold int_of_byte. rewrite N2Z.id.
  by rewrite Byte.of_to_N.
Qed.

Lemma int_of_byte_of_int (x : Z) : int_of_byte (byte_of_int x) = x `mod` 256.
Proof.
  unfold byte_of_int, int_of_byte.
  pose proof (Z.mod_pos_bound x 256 ltac:(lia)).
  destruct (Byte.of_N (Z.to_N (x `mod` 256))) as [b|] eqn:Hb.
  - apply Byte.to_of_N in Hb. rewrite Hb. lia.
  - apply Byte.of_N_None_iff in Hb. lia.
Qed.

Lemma lxor_byte_range (x y : Z) : 0 ≤ x < 256 → 0 ≤ y < 256 → 0 ≤ Z.lxor x y < 256.
Proof.
  intros Hx Hy. split; [apply Z.lxor_nonneg; lia|].
  destruct (decide (Z.lxor x y = 0)) as [->|Hne]; [lia|].
  assert (0 < Z.lxor x y) by (pose proof (proj2 (Z.lxor_nonneg x y)); lia).
  change 256 with (2 ^ 8). apply Z.log2_lt_pow2; [done|].
  pose proof (Z.log2_lxor x y ltac:(lia) ltac:(lia)).
  assert (Z.log2 x < 8).
  { destruct (decide (x = 0)) as [->|]; [done|]. apply Z.log2_lt_pow2; lia. }
  assert (Z.log2 y < 8).
  { destruct (decide (y = 0)) as [->|]; [done|]. apply Z.log2_lt_pow2; lia. }
  lia.
Qed.

Lemma byte_xor_involutive (v b : byte) : byte_xor (byte_xor v b) b = v.
Proof.
  unfold byte_xor. rewrite int_of_byte_of_int.
  pose proof (int_of_byte_range v). pose proof (int_of_byte_range b).
  rewrite Z.mod_small by by apply lxor_byte_range.
  rewrite Z.lxor_assoc, Z.lxor_nilpotent, Z.lxor_0_r. apply byte_of_int_of_byte.
Qed.

Lemma byte_xor_zero (b : byte) : byte_xor x00 b = b.
Proof. unfold byte_xor. change (int_of_byte x00) with 0. rewrite Z.lxor_0_l. apply byte_of_int_of_byte. Qed.

(** ** The transform of a stream handle *)

Lemma mapM_const {S A B} (m : M S B) (l l' : list A) σ :
  length l = length l' → mapM (λ _, m) l σ = mapM (λ _, m) l' σ.
Proof.
  revert l' σ. induction l as [|x l IH]; intros [|x' l'] σ Hlen; simplify_eq/=; [done|].
  apply bind_ext. intros y σ'. apply bind_cong_l. by apply IH.
Qed.

Lemma xor_body_fits (ix : nat) (src dst : list byte) σ :
  (ix + length src ≤ length dst)%nat →
  xor_body ix src dst σ =
  (ks <- mapM (λ _, drip) src ;; ret (xor_into ix src ks dst)) σ.
Proof.
  revert ix dst σ. induction src as [|v src IH]; intros ix dst σ Hfit; simpl in *; [done|].
  rewrite bind_assoc. apply bind_ext. intros x σ'.
  destruct (decide _); [|lia]. rewrite IH by (rewrite length_insert; lia).
  by rewrite bind_assoc.
Qed.

Lemma xor_into_closed (ix : nat) (src : list byte) (ks : list Z) (dst : list byte) :
  length ks = length src → (ix + length src ≤ length dst)%nat →
  xor_into ix src ks dst =
  take ix dst ++ zip_with (λ v x, byte_xor v (byte_of_int x)) src ks
    ++ drop (ix + length src) dst.
Proof.
  revert ix ks dst. induction src as [|v src IH]; intros ix [|x ks] dst Hlen Hfit;
    simplify_eq/=.
  - by rewrite Nat.add_0_r, take_drop.
  - rewrite IH by (rewrite ?length_insert; lia).
    rewrite (take_S_r _ _ (byte_xor v (byte_of_int x)))
      by (apply list_lookup_insert_eq; lia).
    rewrite take_insert_ge by lia. rewrite drop_insert_lt by lia.
    rewrite <- app_assoc. simpl.
    by replace (ix + S (length src))%nat with (S (ix + length src)) by lia.
Qed.

Lemma xor_body_result sl σ (dst src : list byte) :
  good sl σ → (length src ≤ length dst)%nat →
  ∃ vs σ',
    mapM (λ _, drip) src σ = Ok vs σ' ∧ length vs = length src ∧ good sl σ' ∧
    xor_body 0 src dst σ =
      Ok (zip_with (λ v x, byte_xor v (byte_of_int x)) src vs ++ drop (length src) dst) σ'.
Proof.
  intros Hσ Hfit.
  pose proof (triple_mapM src (λ _ : byte, drip) (good sl) (λ _, True) (λ _, False)) as H.
  specialize (H (λ _ _, triple_conseq _ _ _ _ _ _ _ (drip_good sl)
    (λ _ H, H) (λ _ _ H, conj I (proj1 (proj2 H))) (λ _ H, H)) σ Hσ).
  destruct (mapM _ src σ) as [vs σ'|] eqn:Hm; [|done]. destruct H as (Hlen & _ & Hσ').
  exists vs, σ'. split_and!; [done..|].
  rewrite xor_body_fits by done. rewrite (bind_ok _ _ _ _ _ Hm). unfold ret.
  by rewrite xor_into_closed by done.
Qed.

Lemma live_holds μ p : live μ p → ∃ l σ, holds μ p l σ.
Proof.
  intros (st & Hp & l & arr & Hs & Hl & Hg).
  exists l, (with_s None st, arr). split_and!; simpl.
  - by rewrite with_s_with_s, <- Hs, with_s_same.
  - done.
  - by apply (good_reheader _ None _ Hg).
Qed.

Lemma holds_live μ p l σ : holds μ p l σ → live μ p.
Proof.
  intros (Hp & Hl & Hg). eexists. split; [exact Hp|]. exists l, σ.2.
  split_and!; [done..|]. by apply (good_reheader _ (Some l) _ Hg).
Qed.

Lemma holds_put_view μ p l σ σ' :
  holds μ p l σ → good None σ' → holds (put_view p l σ' μ) p l σ'.
Proof.
  intros (Hp & Hl & _) Hg. split_and!; [| |done]; simpl.
  - apply list_lookup_insert_eq. by eapply lookup_lt_Some.
  - apply list_lookup_insert_eq. by eapply lookup_lt_Some.
Qed.

Lemma put_view_put_view p l σ1 σ2 μ :
  put_view p l σ2 (put_view p l σ1 μ) = put_view p l σ2 μ.
Proof. unfold put_view. simpl. by rewrite !list_insert_insert_eq. Qed.

Lemma call_holds {A} (p : ptr) (m : method A) μ l σ :
  holds μ p l σ → header_blind m →
  call p m μ =
    match m σ with
    | Ok x σ' => Ok x (put_view p l σ' μ)
    | Panic σ' => Panic (put_view p l σ' μ)
    end.
Proof.
  intros (Hp & Hl & Hg) Hm.
  rewrite (call_view _ _ _ _ _ _ Hp eq_refl Hl Hm).
  rewrite with_s_with_s. pose proof (good_s _ _ Hg) as Hs.
  rewrite <- Hs, with_s_same. by destruct σ.
Qed.

Lemma XORKeyStream_holds (c : stream.t) (dst src : list byte) μ l σ :
  holds μ c.(stream.s) l σ →
  XORKeyStream c dst src μ =
    match xor_body 0 src dst σ with
    | Ok x σ' => Ok x (put_view c.(stream.s) l σ' μ)
    | Panic σ' => Panic (put_view c.(stream.s) l σ' μ)
    end.
Proof.
  intros Hh. unfold XORKeyStream. rewrite xor_from_call by by eapply holds_live.
  by apply call_holds, hb_xor_body.
Qed.

Lemma zip_with_xor_zero (vs : list Z) :
  zip_with (λ v x, byte_xor v (byte_of_int x)) (replicate (length vs) x00) vs =
  byte_of_int <$> vs.
Proof. induction vs as [|x vs IH]; simpl; [done|]. by rewrite byte_xor_zero, IH. Qed.

Lemma zip_with_xor_twice (src : list byte) (vs : list Z) :
  length vs = length src →
  zip_with (λ v x, byte_xor v (byte_of_int x))
    (zip_with (λ v x, byte_xor v (byte_of_int x)) src vs) vs = src.
Proof.
  revert vs. induction src as [|v src IH]; intros [|x vs] Hlen; simplify_eq/=; [done|].
  by rewrite byte_xor_involutive, IH.
Qed.

(** X1. On a live stream handle, with a destination at least as long as the
    source, XORKeyStream returns: the first len(src) bytes of dst become
    the source bytes xored, position by position, with the keystream (the
    bytes the same handle gives on zero bytes); the bytes of dst beyond
    len(src) stay as they were; the handle is left as len(src) keystream
    bytes leave it. *)
Theorem XORKeyStream_xors_keystream (c : stream.t) (dst src : list byte) (μ : mem) :
  live μ c.(stream.s) → (length src ≤ length dst)%nat →
  ∃ ks μ',
    keystream c (length src) μ = Ok ks μ' ∧ length ks = length src ∧
    XORKeyStream c dst src μ = Ok (zip_with byte_xor src ks ++ drop (length src) dst) μ'.
Proof.
  intros Hlive Hfit. destruct (live_holds _ _ Hlive) as (l & σ & Hh).
  pose proof Hh as (_ & _ & Hg).
  destruct (xor_body_result None σ dst src Hg Hfit) as (vs & σ' & Hm & Hlen & Hg' & Hx).
  destruct (xor_body_result None σ (replicate (length src) x00) (replicate (length src) x00) Hg)
    as (vs0 & σ0 & Hm0 & Hlen0 & _ & Hx0).
  { done. }
  rewrite (mapM_const _ _ src) in Hm0 by by rewrite length_replicate.
  rewrite Hm in Hm0. simplify_eq.
  exists (byte_of_int <$> vs0), (put_view c.(stream.s) l σ0 μ).
  unfold keystream. rewrite !(XORKeyStream_holds _ _ _ _ _ _ Hh), Hx, Hx0.
  rewrite length_fmap, length_replicate in *. split_and!; [|done|].
  - rewrite drop_ge, app_nil_r by (rewrite length_replicate; lia).
    by rewrite <- Hlen, zip_with_xor_zero.
  - by rewrite zip_with_fmap_r.
Qed.

Lemma XORKeyStream_xors_keystream_witness :
  let c := stream.mk 0%nat in
  let μ := mkMem [init_state 0] [seqZ 0 256] in
  ∃ ks μ',
    keystream c 2 μ = Ok ks μ' ∧ length ks = 2%nat ∧
    XORKeyStream c [x00; x00; x00] ["h"%byte; "i"%byte] μ
      = Ok (zip_with byte_xor ["h"%byte; "i"%byte] ks ++ [x00]) μ'.
Proof.
  intros c μ.
  apply (XORKeyStream_xors_keystream c [x00; x00; x00] ["h"%byte; "i"%byte] μ).
  - fresh_live.
  - simpl. lia.
Defined.

(** X2. Transforming a message piece by piece with one handle gives the same
    bytes and the same memory as transforming it in one call. *)
Theorem XORKeyStream_chunks (c : stream.t) (d1 d2 s1 s2 : list byte) (μ : mem) :
  live μ c.(stream.s) → length d1 = length s1 → (length s2 ≤ length d2)%nat →
  ∃ o1 μ1 o2 μ2,
    XORKeyStream c d1 s1 μ = Ok o1 μ1 ∧
    XORKeyStream c d2 s2 μ1 = Ok o2 μ2 ∧
    XORKeyStream c (d1 ++ d2) (s1 ++ s2) μ = Ok (o1 ++ o2) μ2.
Proof.
  intros Hlive Hl1 Hl2. destruct (live_holds _ _ Hlive) as (l & σ & Hh).
  pose proof Hh as (_ & _ & Hg).
  destruct (xor_body_result None σ d1 s1 Hg) as (vs1 & σ1 & Hm1 & Hlen1 & Hg1 & Hx1); [lia|].
  destruct (xor_body_result None σ1 d2 s2 Hg1 Hl2) as (vs2 & σ2 & Hm2 & Hlen2 & Hg2 & Hx2).
  destruct (xor_body_result None σ (d1 ++ d2) (s1 ++ s2) Hg)
    as (vs & σ' & Hm & Hlen & _ & Hx).
  { rewrite !length_app. lia. }
  rewrite mapM_app, (bind_ok _ _ _ _ _ Hm1), (bind_ok _ _ _ _ _ Hm2) in Hm.
  unfold ret in Hm. simplify_eq.
  eexists _, _, _, _. split_and!.
  - by rewrite (XORKeyStream_holds _ _ _ _ _ _ Hh), Hx1.
  - rewrite (XORKeyStream_holds _ _ _ _ _ _ (holds_put_view _ _ _ _ _ Hh Hg1)), Hx2.
    by rewrite put_view_put_view.
  - rewrite (XORKeyStream_holds _ _ _ _ _ _ Hh), Hx. f_equal.
    rewrite zip_with_app by done. rewrite length_app, <- Hl1.
    rewrite drop_app_add, <- !app_assoc. f_equal.
    by rewrite drop_all.
Qed.

Lemma XORKeyStream_chunks_witness :
  let c := stream.mk 0%nat in
  let μ := mkMem [init_state 0] [seqZ 0 256] in
  ∃ o1 μ1 o2 μ2,
    XORKeyStream c [x00] ["a"%byte] μ = Ok o1 μ1 ∧
    XORKeyStream c [x00; x00] ["b"%byte] μ1 = Ok o2 μ2 ∧
    XORKeyStream c [x00; x00; x00] ["a"%byte; "b"%byte] μ = Ok (o1 ++ o2) μ2.
Proof.
  intros c μ.
  apply (XORKeyStream_chunks c [x00] [x00; x00] ["a"%byte] ["b"%byte] μ).
  - fresh_live.
  - reflexivity.
  - simpl. lia.
Defined.

Lemma xor_body_short sl (ix : nat) (src dst : list byte) :
  (ix ≤ length dst < ix + length src)%nat →
  triple (good sl) (xor_body ix src dst) (λ _ _, False) (good sl).
Proof.
  revert ix dst. induction src as [|v src IH]; intros ix dst Hlen; simpl in *; [lia|].
  eapply triple_bind with (Q' := λ _, good sl).
  { apply triple_weaken. eapply triple_conseq; [apply drip_good|done| |done].
    by intros ? ? (? & ? & ?). }
  intros x. destruct (decide _); [|by intros σ Hσ].
  apply IH. rewrite length_insert. lia.
Qed.

(** X3. When dst is shorter than src, XORKeyStream panics (index out of
    range); the state behind the handle is still in order at the panic. *)
Theorem XORKeyStream_short_dst (c : stream.t) (dst src : list byte) (μ : mem) :
  live μ c.(stream.s) → (length dst < length src)%nat →
  ∃ μ', XORKeyStream c dst src μ = Panic μ' ∧ live μ' c.(stream.s).
Proof.
  intros Hlive Hshort. destruct (live_holds _ _ Hlive) as (l & σ & Hh).
  pose proof Hh as (_ & _ & Hg).
  pose proof (xor_body_short None 0 src dst ltac:(lia) σ Hg) as H.
  rewrite (XORKeyStream_holds _ _ _ _ _ _ Hh).
  destruct (xor_body 0 src dst σ) as [|σ']; [done|].
  eexists. split; [done|]. eapply holds_live, holds_put_view; eauto.
Qed.

Lemma XORKeyStream_short_dst_witness :
  let c := stream.mk 0%nat in
  let μ := mkMem [init_state 0] [seqZ 0 256] in
  ∃ μ', XORKeyStream c [x00] ["a"%byte; "b"%byte] μ = Panic μ' ∧ live μ' c.(stream.s).
Proof.
  intros c μ. apply (XORKeyStream_short_dst c [x00] ["a"%byte; "b"%byte] μ).
  - fresh_live.
  - simpl. lia.
Defined.

(** X4. Decryption is encryption. For every key and every plaintext,
    NewStream and XORKeyStream return; transforming the plaintext in place
    with the stream of the key, and the result in place with a fresh stream
    of the same key (constructed in whatever memory), gives the plaintext
    back; the ciphertext has the length of the plaintext. *)
Theorem XORKeyStream_round_trip (key plain : list byte) (μ μ' : mem) :
  ∃ c μ1 cipher μ2 c' μ1' μ2',
    NewStream key μ = Ok c μ1 ∧
    XORKeyStream c plain plain μ1 = Ok cipher μ2 ∧
    NewStream key μ' = Ok c' μ1' ∧
    XORKeyStream c' cipher cipher μ1' = Ok plain μ2' ∧
    length cipher = length plain.
Proof.
  destruct (key_schedule_ok key) as (σ & Hk & Hg & _).
  pose proof (good_reheader _ None _ Hg) as Hg0.
  destruct (xor_body_result None _ plain plain Hg0 (le_n _))
    as (vs & σ1 & Hm & Hlen & _ & Hx).
  set (cipher := zip_with (λ v x, byte_xor v (byte_of_int x)) plain vs).
  assert (Hlc : length cipher = length plain).
  { unfold cipher. rewrite length_zip_with_l_eq; done. }
  destruct (xor_body_result None _ cipher cipher Hg0 (le_n _))
    as (vs' & σ1' & Hm' & Hlen' & _ & Hx').
  rewrite (mapM_const _ _ plain) in Hm' by done. rewrite Hm in Hm'. simplify_eq.
  eexists _, _, cipher, _, _, _, _.
  split; [by apply NewStream_ok|]. split; [|split; [by apply NewStream_ok|split; [|done]]].
  - erewrite (stream_run _ _ _ _ _ _ _ Hg); [|apply lookup_snoc..].
    rewrite Hx. by rewrite drop_all, app_nil_r.
  - erewrite (stream_run _ _ _ _ _ _ _ Hg); [|apply lookup_snoc..].
    rewrite Hx'. rewrite drop_all, app_nil_r.
    unfold cipher. by rewrite zip_with_xor_twice.
Qed.

(** ** Sum, Write and Reset on a handle *)

Lemma hb_sum_body size : header_blind (sum_body size).
Proof.
  unfold sum_body. apply hb_bind; [apply hb_absorbStop|]. intros ?.
  apply hb_bind; [apply hb_absorb|]. intros ?.
  apply hb_bind; [apply hb_make_ints|]. intros ?. apply hb_squeeze.
Qed.

Lemma Sum_holds (d : digest.t) (b : list byte) μ l σ :
  holds μ d.(digest.s) l σ →
  Sum d b μ =
    match sum_body d.(digest.size) σ with
    | Ok out σ' => Ok (b ++ (byte_of_int <$> out)) (mkMem μ.(structs) (<[l := σ'.2]> μ.(arrays)))
    | Panic σ' => Panic (mkMem μ.(structs) (<[l := σ'.2]> μ.(arrays)))
    end.
Proof.
  intros (Hp & Hl & Hg). unfold Sum. unfold bind at 1, load. rewrite Hp.
  unfold bind at 1, on_local. cbn [s with_s backing write_back]. rewrite Hl. cbn [default].
  change (id σ.2) with σ.2.
  change (absorbStop ;; absorb [d.(digest.size)] ;; out <- make_ints d.(digest.size) ;; squeeze out)
    with (sum_body d.(digest.size)).
  rewrite hb_sum_body. pose proof (good_s _ _ Hg) as Hs.
  destruct σ as [st arr]. simpl in Hs. cbn [fst snd].
  by destruct (sum_body _ (st, arr)) as [out [st' arr']|[st' arr']].
Qed.

Lemma Write_holds (d : digest.t) (p : list byte) μ l σ :
  holds μ d.(digest.s) l σ →
  ∃ σ', absorb (int_of_byte <$> p) σ = Ok tt σ' ∧ good None σ' ∧
        Write d p μ = Ok (Z.of_nat (length p), None) (put_view d.(digest.s) l σ' μ).
Proof.
  intros Hh. pose proof Hh as (_ & _ & Hg).
  pose proof (absorb_good None (int_of_byte <$> p) σ Hg) as H.
  destruct (absorb _ σ) as [[] σ'|] eqn:Ha.
  - exists σ'. split_and!; [done..|]. unfold Write.
    unfold bind. by rewrite (call_holds _ _ _ _ _ Hh (hb_absorb _)), Ha.
  - destruct H as [_ []]. apply absorbable_bytes.
Qed.

(** What Write followed by Sum returns, from the registers and the array
    contents behind the handle. *)
Lemma hash_returns (d : digest.t) (msg b : list byte) μ l σ :
  holds μ d.(digest.s) l σ →
  returns ((Write d msg ;; Sum d b) μ) =
  returns ((absorb (int_of_byte <$> msg) ;; out <- sum_body d.(digest.size) ;;
            ret (b ++ (byte_of_int <$> out))) σ).
Proof.
  intros Hh. destruct (Write_holds d msg μ l σ Hh) as (σ' & Ha & Hg' & Hw).
  rewrite (bind_ok _ _ _ _ _ Hw), (bind_ok _ _ _ _ _ Ha).
  rewrite (Sum_holds _ _ _ _ _ (holds_put_view _ _ _ _ _ Hh Hg')).
  unfold bind. by destruct (sum_body _ σ').
Qed.

Lemma holds_fresh (structs0 : list state) (arrays0 : list (list Z)) :
  holds (mkMem (structs0 ++ [init_state (length arrays0)]) (arrays0 ++ [seqZ 0 256]))
        (length structs0) (length arrays0) (with_s None (init_state 0), seqZ 0 256).
Proof.
  split_and!; simpl; [apply lookup_snoc..|]. apply (good_reheader _ None _ (good_init 0)).
Qed.

(** X5. After Reset a handle hashes as a fresh accumulator of its size does:
    Reset, Write(msg), Sum(nil) on a handle with a valid pointer, whatever
    was behind it, returns what NewHash(size), Write(msg), Sum(nil)
    returns, and returns nothing where that panics. *)
Theorem Reset_as_new (d : digest.t) (msg : list byte) (μ μ' : mem) :
  is_Some (μ.(structs) !! d.(digest.s)) →
  returns ((Reset d ;; Write d msg ;; Sum d []) μ) = digest_of μ' d.(digest.size) msg.
Proof.
  intros [st0 Hp]. unfold digest_of, Reset.
  rewrite (bind_ok _ _ _ _ _ (initialize_ok _ 256 μ (ex_intro _ st0 Hp))).
  rewrite (bind_ok _ _ _ _ _ (NewHash_ok _ μ')).
  rewrite (hash_returns (digest.mk d.(digest.size) _) _ _ _ _ _ (holds_fresh _ _)).
  erewrite (hash_returns d).
  - reflexivity.
  - split_and!; simpl.
    + apply list_lookup_insert_eq. by eapply lookup_lt_Some.
    + apply lookup_snoc.
    + apply (good_reheader _ None _ (good_init 0)).
Qed.

Lemma Reset_as_new_witness :
  let d := digest.mk 4 0%nat in
  let μ := mkMem [with_a 9 (init_state 0)] [reverse (seqZ 0 256)] in
  returns ((Reset d ;; Write d ["a"%byte] ;; Sum d []) μ) = digest_of empty_mem 4 ["a"%byte].
Proof.
  intros d μ. apply (Reset_as_new d ["a"%byte] μ empty_mem).
  simpl. eauto.
Defined.

Lemma sum_body_refused (size : Z) σ :
  size < 0 ∨ maxAlloc < 8 * size → ∃ σ', sum_body size σ = Panic σ'.
Proof.
  intros H. unfold sum_body.
  unfold bind at 1. destruct (absorbStop σ) as [? σ1|σ1]; [|by eauto].
  unfold bind at 1. destruct (absorb _ σ1) as [? σ2|σ2]; [|by eauto].
  unfold bind at 1. rewrite make_ints_refused by done. by eauto.
Qed.

(** X6. On a live handle of non-negative size: when make accepts the size
    (8 bytes per element, at most maxAlloc bytes), Sum(b) returns b
    followed by exactly size bytes; when the size is beyond that, Sum
    panics. The state behind the handle is in order afterwards, in the one
    case and in the other. *)
Theorem Sum_returns_size_bytes (d : digest.t) (b : list byte) (μ : mem) :
  live μ d.(digest.s) → 0 ≤ d.(digest.size) →
  (8 * d.(digest.size) ≤ maxAlloc →
   ∃ h μ', Sum d b μ = Ok (b ++ h) μ' ∧ length h = Z.to_nat d.(digest.size) ∧
           live μ' d.(digest.s)) ∧
  (maxAlloc < 8 * d.(digest.size) →
   ∃ μ', Sum d b μ = Panic μ' ∧ live μ' d.(digest.s)).
Proof.
  intros Hlive Hsize. destruct (live_holds _ _ Hlive) as (l & σ & Hh).
  pose proof Hh as (Hp & Hl & Hg).
  pose proof (Sum_body_good None d.(digest.size) σ Hg) as H.
  change (absorbStop ;; absorb [d.(digest.size)] ;;
          out <- make_ints d.(digest.size) ;; squeeze out)
    with (sum_body d.(digest.size)) in H.
  rewrite (Sum_holds _ _ _ _ _ Hh).
  assert (∀ σ', good None σ' →
            live (mkMem μ.(structs) (<[l := σ'.2]> μ.(arrays))) d.(digest.s)) as Hkept.
  { intros σ' Hg'. destruct Hlive as (st & Hst & _). exists st. split; [done|].
    cbn [arrays]. exists l, σ'.2. unfold ptr in *. rewrite Hp in Hst. simplify_eq.
    split_and!; [done| |].
    - apply list_lookup_insert_eq. by eapply lookup_lt_Some.
    - destruct Hg, Hg'. by constructor. }
  split.
  - intros Hmax. destruct (sum_body _ σ) as [out σ'|σ'].
    + destruct H as [Hg' Hlen]. eexists _, _. split; [reflexivity|].
      rewrite length_fmap. split; [done|]. by apply Hkept.
    + destruct H as [_ [Hbad|Href]].
      * destruct Hbad. apply absorbable_nonneg. unfold maxAlloc in Hmax. lia.
      * apply refused_true in Href. lia.
  - intros Hmax. destruct (sum_body_refused d.(digest.size) σ (or_intror Hmax)) as [σ' Hpanic].
    rewrite Hpanic in H |- *. destruct H as [Hg' _].
    eexists. split; [reflexivity|]. by apply Hkept.
Qed.

Lemma Sum_returns_size_bytes_witness :
  let d := digest.mk 3 0%nat in
  let d' := digest.mk (2 ^ 45 + 1) 0%nat in
  let μ := mkMem [init_state 0] [seqZ 0 256] in
  (∃ h μ', Sum d ["x"%byte] μ = Ok (["x"%byte] ++ h) μ' ∧ length h = 3%nat ∧
           live μ' d.(digest.s)) ∧
  (∃ μ', Sum d' ["x"%byte] μ = Panic μ' ∧ live μ' d'.(digest.s)).
Proof.
  intros d d' μ. split.
  - refine (proj1 (Sum_returns_size_bytes d ["x"%byte] μ _ _) _).
    + fresh_live.
    + simpl. lia.
    + simpl. unfold maxAlloc. lia.
  - refine (proj2 (Sum_returns_size_bytes d' ["x"%byte] μ _ _) _).
    + fresh_live.
    + simpl. lia.
    + simpl. unfold maxAlloc. lia.
Defined.

(** X8. Write on a live handle does not fail: it returns len(p) and a nil
    error and leaves the state behind the handle in order. Write of an
    empty slice leaves the memory as it is. *)
Theorem Write_total (d : digest.t) (p : list byte) (μ : mem) :
  live μ d.(digest.s) →
  (∃ μ', Write d p μ = Ok (Z.of_nat (length p), None) μ' ∧ live μ' d.(digest.s)) ∧
  Write d [] μ = Ok (0, None) μ.
Proof.
  intros Hlive. destruct (live_holds _ _ Hlive) as (l & σ & Hh). split.
  - destruct (Write_holds d p μ l σ Hh) as (σ' & _ & Hg' & Hw).
    eexists. split; [exact Hw|]. eapply holds_live, holds_put_view; eauto.
  - destruct Hlive as (st & Hp & Hok). unfold Write. simpl.
    by rewrite (bind_ok _ _ _ _ _ (call_ret _ tt _ _ Hp Hok)).
Qed.

Lemma Write_total_witness :
  let d := digest.mk 3 0%nat in
  let μ := mkMem [init_state 0] [seqZ 0 256] in
  (∃ μ', Write d ["a"%byte; "b"%byte] μ = Ok (2, None) μ' ∧ live μ' d.(digest.s)) ∧
  Write d [] μ = Ok (0, None) μ.
Proof.
  intros d μ. apply (Write_total d ["a"%byte; "b"%byte] μ). fresh_live.
Defined.

(** ** Predicates on the registers that the method bodies keep *)

Section Stable.
Context (J : state → Prop).

Lemma stable_ret {A} (x : A) : stable J (ret x).
Proof. by intros σ Hσ. Qed.

Lemma stable_panic {A} : stable J (@panic _ A).
Proof. by intros σ Hσ. Qed.

Lemma stable_bind {A B} (m : method A) (f : A → method B) :
  stable J m → (∀ x, stable J (f x)) → stable J (bind m f).
Proof. intros Hm Hf. eapply triple_bind; [exact Hm|exact Hf]. Qed.

Lemma stable_field (f : state → Z) : stable J (field f).
Proof. by intros σ Hσ. Qed.

Lemma stable_assign (f : Z → state → state) (e : method Z) :
  (∀ v st, J st → J (f v st)) → stable J e → stable J (assign f e).
Proof.
  intros Hf He. apply stable_bind; [done|]. intros v σ Hσ. simpl. by apply Hf.
Qed.

Lemma stable_len_s : stable J len_s.
Proof. by intros σ Hσ. Qed.

Lemma stable_s_at (e : method Z) : stable J e → stable J (s_at e).
Proof.
  intros He. apply stable_bind; [done|]. intros ix σ Hσ. simpl. by destruct (_ && _).
Qed.

Lemma stable_set_at (e1 e2 : method Z) :
  stable J e1 → stable J e2 → stable J (set_at e1 e2).
Proof.
  intros H1 H2. apply stable_bind; [done|]. intros ix.
  apply stable_bind; [done|]. intros v σ Hσ. simpl. by destruct (_ && _).
Qed.

Lemma stable_lift2 {A} (f : Z → Z → A) (e1 e2 : method Z) :
  stable J e1 → stable J e2 → stable J (lift2 f e1 e2).
Proof.
  intros H1 H2. apply stable_bind; [done|]. intros x.
  apply stable_bind; [done|]. intros y. apply stable_ret.
Qed.

Lemma stable_rem (e1 e2 : method Z) :
  stable J e1 → stable J e2 → stable J (e1 %ᵢ e2).
Proof.
  intros H1 H2. apply stable_bind; [done|]. intros x.
  apply stable_bind; [done|]. intros y.
  destruct (y =? 0); [apply stable_panic|apply stable_ret].
Qed.

Lemma stable_quo (e1 e2 : method Z) :
  stable J e1 → stable J e2 → stable J (e1 /ᵢ e2).
Proof.
  intros H1 H2. apply stable_bind; [done|]. intros x.
  apply stable_bind; [done|]. intros y.
  destruct (y =? 0); [apply stable_panic|apply stable_ret].
Qed.

Lemma stable_when (c : method bool) (body : method unit) :
  stable J c → stable J body → stable J (when c body).
Proof. intros Hc Hb. apply stable_bind; [done|]. intros []; [done|apply stable_ret]. Qed.

Lemma stable_forM {A} (l : list A) (body : A → method unit) :
  (∀ x, stable J (body x)) → stable J (forM_ l body).
Proof. intros Hb. apply triple_forM. intros x _. apply Hb. Qed.

Lemma stable_for_to (hi : Z) (body : Z → method unit) :
  (∀ x, stable J (body x)) → stable J (for_to hi body).
Proof. apply stable_forM. Qed.

Lemma stable_mapM {A B} (l : list A) (body : A → method B) :
  (∀ x, stable J (body x)) → stable J (mapM body l).
Proof.
  intros Hb. induction l as [|x l IH]; simpl; [apply stable_ret|].
  apply stable_bind; [apply Hb|]. intros y.
  apply stable_bind; [done|]. intros ys. apply stable_ret.
Qed.

Lemma stable_make_ints (len : Z) : stable J (make_ints len).
Proof. unfold make_ints. destruct (refused len); [apply stable_panic|apply stable_ret]. Qed.
End Stable.

Create HintDb stb.

(** Decompose a method body; assignments must keep [J] by computation, the
    others are looked up among the hints. *)
Ltac stb :=
  cbv beta;
  lazymatch goal with
  | |- stable _ (ret _) => apply stable_ret
  | |- stable _ panic => apply stable_panic
  | |- stable _ (bind _ _) => apply stable_bind; [stb|intros ?; stb]
  | |- stable _ (field _) => apply stable_field
  | |- stable _ (assign _ _) =>
      apply stable_assign; [intros ? ? H; exact H|stb]
  | |- stable _ len_s => apply stable_len_s
  | |- stable _ (s_at _) => apply stable_s_at; stb
  | |- stable _ (set_at _ _) => apply stable_set_at; stb
  | |- stable _ (lift2 _ _ _) => apply stable_lift2; stb
  | |- stable _ (int_rem _ _) => apply stable_rem; stb
  | |- stable _ (int_quo _ _) => apply stable_quo; stb
  | |- stable _ (when _ _) => apply stable_when; stb
  | |- stable _ (forM_ _ _) => apply stable_forM; intros ?; stb
  | |- stable _ (for_to _ _) => apply stable_for_to; intros ?; stb
  | |- stable _ (mapM _ _) => apply stable_mapM; intros ?; stb
  | |- stable _ (make_ints _) => apply stable_make_ints
  | |- stable _ (if ?b then _ else _) => destruct b; stb
  | |- stable _ ?m =>
      first [assumption | solve [auto with stb] | let h := head_of m in unfold h; stb]
  end.

(** ** w stays odd *)

Lemma odd_wrap (x : Z) : Z.odd (wrap x) = Z.odd x.
Proof.
  unfold wrap. rewrite Z.odd_sub, Z.mod_eq by lia.
  rewrite Z.odd_sub, Z.odd_mul, Z.odd_add.
  change (Z.odd (2 ^ 63)) with false. change (Z.odd (2 ^ 64)) with false.
  by destruct (Z.odd x).
Qed.

Lemma odd_rem_even (x y : Z) : y ≠ 0 → Z.even y = true → Z.odd (Z.rem x y) = Z.odd x.
Proof.
  intros Hy He. rewrite Z.rem_eq by done. rewrite Z.odd_sub, Z.odd_mul.
  rewrite <- (Z.negb_even y), He. simpl. by destruct (Z.odd x).
Qed.

Lemma stable_w_odd_step : stable w_odd (set_w ((s_w +ᵢ ret 2) %ᵢ s_n)).
Proof.
  intros [st arr] [Hn Hw]. cbn [fst] in *.
  destruct (decide (st.(n) = 0)) as [Hz|Hne].
  - unfold set_w, assign, int_rem, lift2, s_w, s_n, field, bind, ret.
    cbn [fst snd]. rewrite Hz. by cbn.
  - unfold set_w. erewrite assign_ok by (unfold s_w, s_n; ev; done).
    split; [done|]. change (Z.odd (Z.rem (int_add st.(w) 2) st.(n)) = true).
    rewrite odd_rem_even by done. unfold int_add. by rewrite odd_wrap, Z.odd_add, Hw.
Qed.
#[local] Hint Resolve stable_w_odd_step : stb.

Lemma stable_w_odd_fill : stable w_odd fill_identity.
Proof. stb. Qed.
Lemma stable_w_odd_absorb msg : stable w_odd (absorb msg).
Proof. stb. Qed.
Lemma stable_w_odd_drip : stable w_odd drip.
Proof. stb. Qed.
Lemma stable_w_odd_keySetup key : stable w_odd (keySetup key).
Proof. stb. Qed.

(** ** a stays at most n/2 *)

Lemma stable_a_reset : stable a_bounded (set_a (ret 0)).
Proof.
  intros [st arr] [Hn Ha]. change (a_bounded (with_a 0 st)).
  split; [exact Hn|]. change (0 ≤ 0 ≤ 128). lia.
Qed.
#[local] Hint Resolve stable_a_reset : stb.

Lemma stable_a_whip : stable a_bounded whip.
Proof. stb. Qed.
Lemma stable_a_crush : stable a_bounded crush.
Proof. stb. Qed.
Lemma stable_a_shuffle : stable a_bounded shuffle.
Proof. stb. Qed.
#[local] Hint Resolve stable_a_shuffle : stb.

Lemma shuffle_a_zero :
  triple (λ σ, a_bounded σ.1) shuffle
    (λ _ σ, a_bounded σ.1 ∧ σ.1.(a) = 0) (λ σ, a_bounded σ.1).
Proof.
  unfold shuffle.
  eapply triple_bind; [apply stable_a_whip|]. intros ?.
  eapply triple_bind; [apply stable_a_crush|]. intros ?.
  eapply triple_bind; [apply stable_a_whip|]. intros ?.
  eapply triple_bind; [apply stable_a_crush|]. intros ?.
  eapply triple_bind; [apply stable_a_whip|]. intros ?.
  intros [st arr] [Hn Ha]. change (a_bounded (with_a 0 st) ∧ 0 = 0).
  split; [|done]. split; [exact Hn|]. change (0 ≤ 0 ≤ 128). lia.
Qed.

Lemma when_half_a :
  triple (λ σ, a_bounded σ.1) (when (s_a ==ᵢ s_n /ᵢ ret 2) shuffle)
    (λ _ σ, a_bounded σ.1 ∧ σ.1.(a) ≠ 128) (λ σ, a_bounded σ.1).
Proof.
  apply triple_when.
  - intros [st arr] [Hn Ha]. simpl in *. eexists. split; [unfold s_a, s_n; ev; done|].
    simpl. rewrite Hn, half_256. destruct (Z.eqb_spec st.(a) 128); [done|].
    by split.
  - intros σ Hσ _. pose proof (shuffle_a_zero σ Hσ) as H.
    destruct (shuffle σ); [|done]. destruct H as [H H0]. split; [done|lia].
Qed.

Lemma set_a_next :
  triple (λ σ, a_bounded σ.1 ∧ σ.1.(a) ≠ 128) (set_a ((s_a +ᵢ ret 1) %ᵢ s_n))
    (λ _ σ, a_bounded σ.1) (λ σ, a_bounded σ.1).
Proof.
  intros [st arr] [[Hn Ha] Hne]. simpl in *. unfold set_a.
  erewrite assign_ok by (unfold s_a, s_n; ev; simpl; lia).
  split; [done|]. change (0 ≤ Z.rem (int_add st.(a) 1) st.(n) ≤ 128).
  rewrite int_add_small, Hn, rem_256, Z.mod_small by lia. lia.
Qed.

Lemma stable_a_absorbStop : stable a_bounded absorbStop.
Proof.
  unfold absorbStop. eapply triple_bind; [apply when_half_a|].
  intros ?. apply set_a_next.
Qed.

Lemma stable_a_absorbNibble x : stable a_bounded (absorbNibble x).
Proof.
  unfold absorbNibble. eapply triple_bind; [apply when_half_a|]. intros ?.
  set (J' := λ st, a_bounded st ∧ st.(a) ≠ 128).
  assert (Hweak : ∀ {A} (m : method A), stable J' m →
            triple (λ σ, a_bounded σ.1 ∧ σ.1.(a) ≠ 128) m
              (λ _ σ, a_bounded σ.1 ∧ σ.1.(a) ≠ 128) (λ σ, a_bounded σ.1)).
  { intros A m Hm. eapply triple_conseq; [exact Hm|done|done|]. by intros σ []. }
  eapply triple_bind; [apply Hweak; stb|]. intros y.
  eapply triple_bind; [apply Hweak; stb|]. intros t.
  eapply triple_bind; [apply Hweak; stb|]. intros ?.
  eapply triple_bind; [apply Hweak; stb|]. intros ?.
  apply set_a_next.
Qed.
#[local] Hint Resolve stable_a_absorbStop stable_a_absorbNibble : stb.

Lemma stable_a_fill : stable a_bounded fill_identity.
Proof. stb. Qed.
Lemma stable_a_absorb msg : stable a_bounded (absorb msg).
Proof. stb. Qed.
Lemma stable_a_drip : stable a_bounded drip.
Proof. stb. Qed.
Lemma stable_a_keySetup key : stable a_bounded (keySetup key).
Proof. stb. Qed.

(** ** From the method bodies to the runs of the public interface *)

Lemma mem_all_call {A} (J : state → Prop) (p : ptr) (m : method A) μ :
  stable J m → mem_all J μ → mem_all J (final (call p m μ)).
Proof.
  intros Hm Hμ. unfold call. destruct (μ.(structs) !! p) as [st|] eqn:Hp; [|done].
  specialize (Hm (st, backing μ st.(s)) (Hμ _ _ Hp)).
  assert (∀ (σ' : state * list Z) h, J σ'.1 →
            mem_all J (mkMem (<[p := σ'.1]> μ.(structs)) h)) as Hput.
  { intros σ' h Hσ' q st' Hq. cbn [structs] in Hq.
    destruct (decide (p = q)) as [->|Hne].
    - rewrite list_lookup_insert_eq in Hq by by eapply lookup_lt_Some. by simplify_eq.
    - rewrite list_lookup_insert_ne in Hq by done. by eapply Hμ. }
  destruct (m _) as [x σ'|σ']; cbn [final]; by apply Hput.
Qed.

Lemma mem_all_snoc (J : state → Prop) μ st h :
  mem_all J μ → J st → mem_all J (mkMem (μ.(structs) ++ [st]) h).
Proof.
  intros Hμ Hst q st' Hq. cbn [structs] in Hq.
  apply lookup_app_Some in Hq as [Hq|[_ Hq]]; [by eapply Hμ|].
  apply list_lookup_singleton_Some in Hq as [_ <-]. done.
Qed.

Lemma mem_all_xor_from (J : state → Prop) c ix src dst μ :
  stable J drip → mem_all J μ → mem_all J (final (xor_from c ix src dst μ)).
Proof.
  intros Hd. revert ix dst μ. induction src as [|v src IH]; intros ix dst μ Hμ; [done|].
  cbn [xor_from]. unfold bind.
  pose proof (mem_all_call J c.(stream.s) drip μ Hd Hμ) as H.
  destruct (call _ drip μ) as [x μ1|μ1]; [|done]. cbn [final] in H.
  destruct (decide _); [by apply IH|done].
Qed.

Lemma exec_stable (J : state → Prop) (c : api_call) μ :
  (∀ l, J (init_state l)) → (∀ sl st, J st → J (with_s sl st)) →
  (∀ msg, stable J (absorb msg)) → stable J drip → (∀ key, stable J (keySetup key)) →
  mem_all J μ → mem_all J (exec c μ).
Proof.
  intros Hinit Hs Habsorb Hdrip Hkey Hμ. destruct c; cbn [exec].
  - destruct (key_schedule_ok key) as (σ & Hk & _).
    rewrite (NewStream_ok _ _ _ Hk). apply mem_all_snoc; [done|]. apply Hs.
    pose proof (Hkey (int_of_byte <$> key) (init_state 0, seqZ 0 256) (Hinit _)) as H.
    unfold key_schedule in Hk. by rewrite Hk in H.
  - rewrite NewHash_ok. by apply mem_all_snoc.
  - by apply mem_all_xor_from.
  - intros q st Hq. rewrite Sum_structs in Hq. by eapply Hμ.
  - unfold Write, bind.
    pose proof (mem_all_call J d.(digest.s) _ μ (Habsorb (int_of_byte <$> p)) Hμ) as H.
    by destruct (call _ _ μ).
  - unfold Reset. destruct (μ.(structs) !! d.(digest.s)) as [st|] eqn:Hp.
    + rewrite initialize_ok by eauto. intros q st' Hq. cbn [final structs] in Hq.
      destruct (decide (d.(digest.s) = q)) as [<-|Hne].
      * rewrite list_lookup_insert_eq in Hq by by eapply lookup_lt_Some. by simplify_eq.
      * rewrite list_lookup_insert_ne in Hq by done. by eapply Hμ.
    + rewrite initialize_dangling by done. done.
Qed.

Lemma run_stable (J : state → Prop) (calls : list api_call) :
  (∀ l, J (init_state l)) → (∀ sl st, J st → J (with_s sl st)) →
  (∀ msg, stable J (absorb msg)) → stable J drip → (∀ key, stable J (keySetup key)) →
  mem_all J (run calls).
Proof.
  intros Hinit Hs Habsorb Hdrip Hkey. unfold run.
  assert (mem_all J empty_mem) as H0 by by intros [|p] st Hp.
  revert H0. generalize empty_mem.
  induction calls as [|c calls IH]; intros μ Hμ; simpl; [done|].
  by apply IH, exec_stable.
Qed.

(** ** The registers w and a in the reachable states *)

Lemma gcd_odd_256 (x : Z) : Z.odd x = true → Z.gcd x 256 = 1.
Proof.
  intros Hx. change 256 with (2 ^ 8). apply Z.coprime_pow_r; [lia|].
  symmetry. apply Z.coprime_prime_l; [apply Z.prime_2|].
  intros [q Hq]. rewrite Hq, Z.odd_mul in Hx. simpl in Hx.
  by rewrite andb_false_r in Hx.
Qed.

(** X9. In every struct that a sequence of public calls leaves, w is odd, and
    so coprime to n: initialize sets w to 1 and whip adds 2. *)
Theorem w_always_odd (calls : list api_call) (p : ptr) (st : state) :
  (run calls).(structs) !! p = Some st → Z.odd st.(w) = true ∧ Z.gcd st.(w) st.(n) = 1.
Proof.
  intros Hp.
  assert (w_odd st) as [_ Hw].
  { eapply (run_stable w_odd calls); [| | | | |exact Hp].
    - by intros l.
    - by intros sl st' H.
    - apply stable_w_odd_absorb.
    - apply stable_w_odd_drip.
    - apply stable_w_odd_keySetup. }
  split; [done|].
  destruct (run_inv calls p st Hp) as (l & arr & _ & _ & Hg).
  pose proof (good_n _ _ Hg) as Hn. simpl in Hn. rewrite Hn.
  by apply gcd_odd_256.
Qed.

Lemma w_always_odd_witness :
  let st := mkState 256 (Some 0%nat) 0 0 66 223 7 0 in
  Z.odd st.(w) = true ∧ Z.gcd st.(w) st.(n) = 1.
Proof.
  intros st. apply (w_always_odd [CallNewStream ["k"%byte]] 0%nat st).
  vm_compute. reflexivity.
Defined.

(** X10. In every struct that a sequence of public calls leaves, a is between
    0 and n/2: absorbStop and absorbNibble shuffle, which resets a, before
    a would pass n/2. *)
Theorem a_at_most_half (calls : list api_call) (p : ptr) (st : state) :
  (run calls).(structs) !! p = Some st → 0 ≤ st.(a) ≤ st.(n) `div` 2.
Proof.
  intros Hp.
  assert (a_bounded st) as [Hn Ha].
  { eapply (run_stable a_bounded calls); [| | | | |exact Hp].
    - intros l. split; simpl; [done|lia].
    - by intros sl st' H.
    - apply stable_a_absorb.
    - apply stable_a_drip.
    - apply stable_a_keySetup. }
  rewrite Hn. by change (256 `div` 2) with 128.
Qed.

Lemma a_at_most_half_witness :
  let st := mkState 256 (Some 0%nat) 128 0 0 0 1 0 in
  0 ≤ st.(a) ≤ st.(n) `div` 2.
Proof.
  intros st.
  apply (a_at_most_half
           [CallNewHash 2; CallWrite (digest.mk 2 0%nat) (replicate 64 "a"%byte)] 0%nat st).
  vm_compute. reflexivity.
Defined.

(** ** output *)

(** X11. output on a state of size n (registers and entries below n) returns.
    With y1 = (z+k) mod n, x1 = (i + s[y1]) mod n and y2 = (j + s[x1]) mod n
    it returns s[y2], a value of [0, n), stores it in z, and changes
    nothing else. *)
Theorem output_exact (st : state) (arr : list Z) :
  sized (st, arr) →
  let y1 := (st.(z) + st.(k)) `mod` st.(n) in
  let x1 := (st.(i) + arr !!! Z.to_nat y1) `mod` st.(n) in
  let y2 := (st.(j) + arr !!! Z.to_nat x1) `mod` st.(n) in
  let v := arr !!! Z.to_nat y2 in
  output (st, arr) = Ok v (with_z v st, arr) ∧ 0 ≤ v < st.(n).
Proof.
  intros Hσ y1 x1 y2 v.
  pose proof (sized_n _ Hσ) as Hn. pose proof (sized_len _ Hσ) as Hlen.
  pose proof (sized_i _ Hσ) as Hi. pose proof (sized_j _ Hσ) as Hj.
  pose proof (sized_k _ Hσ) as Hk. pose proof (sized_z _ Hσ) as Hz.
  simpl in *.
  assert (Hy1 : 0 ≤ y1 < st.(n)) by (apply Z.mod_pos_bound; lia).
  pose proof (sized_lookup _ y1 Hσ Hy1) as Hs1. simpl in Hs1.
  assert (Hx1 : 0 ≤ x1 < st.(n)) by (apply Z.mod_pos_bound; lia).
  pose proof (sized_lookup _ x1 Hσ Hx1) as Hs2. simpl in Hs2.
  assert (Hy2 : 0 ≤ y2 < st.(n)) by (apply Z.mod_pos_bound; lia).
  pose proof (sized_lookup _ y2 Hσ Hy2) as Hs3. simpl in Hs3.
  split; [|done].
  unfold output, set_z, s_z, s_i, s_j, s_k, s_n.
  step. rewrite int_add_small, Z.rem_mod_nonneg by lia. fold y1.
  step. rewrite int_add_small, Z.rem_mod_nonneg by lia. fold x1.
  step. rewrite int_add_small, Z.rem_mod_nonneg by lia. fold y2.
  step. done.
Qed.

Lemma output_exact_witness :
  let st := mkState 4 None 0 1 2 3 1 0 in
  output (st, [2; 0; 3; 1]) = Ok 0 (with_z 0 st, [2; 0; 3; 1]) ∧ 0 ≤ 0 < 4.
Proof.
  intros st. apply (output_exact st [2; 0; 3; 1]).
  constructor; simpl; try lia.
  intros [|[|[|[|ix]]]] v Hv; simpl in Hv; simplify_eq; lia.
Defined.

(** ** crush *)

Lemma triple_for_from {Σ} (lo : Z) (len : nat) (body : Z → M Σ unit)
    (I : Z → Σ → Prop) (R : Σ → Prop) :
  (∀ m, lo ≤ m < lo + Z.of_nat len → triple (I m) (body m) (λ _, I (m + 1)) R) →
  triple (I lo) (forM_ (seqZ lo (Z.of_nat len)) body) (λ _, I (lo + Z.of_nat len)) R.
Proof.
  revert lo. induction len as [|len IH]; intros lo Hbody.
  - simpl. apply triple_ret. intros σ Hσ. by rewrite Z.add_0_r.
  - rewrite seqZ_cons by lia. cbn [forM_].
    eapply triple_bind; [apply Hbody; lia|]. intros ?.
    replace (Z.pred (Z.of_nat (S len))) with (Z.of_nat len) by lia.
    replace (lo + Z.of_nat (S len)) with (Z.succ lo + Z.of_nat len) by lia.
    replace (lo + 1) with (Z.succ lo) by lia.
    apply IH. intros m Hm. apply Hbody. lia.
Qed.

Lemma triple_for_to {Σ} (hi : Z) (body : Z → M Σ unit)
    (I : Z → Σ → Prop) (R : Σ → Prop) :
  0 ≤ hi →
  (∀ m, 0 ≤ m < hi → triple (I m) (body m) (λ _, I (m + 1)) R) →
  triple (I 0) (for_to hi body) (λ _, I hi) R.
Proof.
  intros Hhi Hbody. unfold for_to.
  pose proof (triple_for_from 0 (Z.to_nat hi) body I R) as H.
  rewrite Z2Nat.id, Z.add_0_l in H by done. by apply H.
Qed.

Lemma lookup_total_insert_eq (l : list Z) (ix : nat) (v : Z) :
  (ix < length l)%nat → <[ix := v]> l !!! ix = v.
Proof. intros H. apply list_lookup_total_correct. by apply list_lookup_insert_eq. Qed.

Lemma lookup_total_insert_ne (l : list Z) (ix jx : nat) (v : Z) :
  ix ≠ jx → <[ix := v]> l !!! jx = l !!! jx.
Proof. intros H. by rewrite !list_lookup_total_alt, list_lookup_insert_ne. Qed.

Lemma crush_step (st : state) (arr arr1 : list Z) (m : Z) :
  0 < st.(n) < 2 ^ 62 → Z.of_nat (length arr) = st.(n) → 0 ≤ m < st.(n) `div` 2 →
  crushed_to m st.(n) arr arr1 →
  ∃ arr2,
    (y <- (s_n -ᵢ ret 1) -ᵢ ret m ;;
     x1 <- s_at (ret m) ;;
     x2 <- s_at (ret y) ;;
     if x1 >? x2 then
       set_at (ret m) (ret x2) ;;
       set_at (ret y) (ret x1)
     else
       set_at (ret m) (ret x1) ;;
       set_at (ret y) (ret x2)) (st, arr1) = Ok tt (st, arr2) ∧
    crushed_to (m + 1) st.(n) arr arr2.
Proof.
  intros Hn Hlen Hm [Hl1 Hpairs].
  pose proof (Z.mul_div_le st.(n) 2 ltac:(lia)) as Hdiv.
  assert (Hhalf : st.(n) `div` 2 ≤ st.(n) - 1 - m ∧ st.(n) - 1 - m < st.(n)) by lia.
  pose proof (Hpairs m Hm) as Hcur. destruct (decide (m < m)) as [|_]; [lia|].
  destruct Hcur as [Hcm Hcy].
  unfold s_n. step. rewrite !int_sub_small by (rewrite ?int_sub_small; lia).
  step. step. rewrite Hcm, Hcy.
  set (x1 := arr !!! Z.to_nat m). set (x2 := arr !!! Z.to_nat (st.(n) - 1 - m)).
  assert (Hne : Z.to_nat m ≠ Z.to_nat (st.(n) - 1 - m)) by lia.
  destruct (Z.gtb_spec x1 x2) as [Hgt|Hle].
  - step. step; [|rewrite length_insert; lia].
    eexists. split; [reflexivity|]. split; [by rewrite !length_insert|].
    intros ix Hix. specialize (Hpairs ix Hix).
    destruct (decide (ix = m)) as [->|Hnm].
    + destruct (decide (m < m + 1)); [|lia].
      rewrite lookup_total_insert_ne, !lookup_total_insert_eq
        by (rewrite ?length_insert; lia).
      fold x1 x2. lia.
    + rewrite !lookup_total_insert_ne by lia.
      destruct (decide (ix < m)), (decide (ix < m + 1)); done || lia.
  - step. step; [|rewrite length_insert; lia].
    eexists. split; [reflexivity|]. split; [by rewrite !length_insert|].
    intros ix Hix. specialize (Hpairs ix Hix).
    destruct (decide (ix = m)) as [->|Hnm].
    + destruct (decide (m < m + 1)); [|lia].
      rewrite lookup_total_insert_ne, !lookup_total_insert_eq
        by (rewrite ?length_insert; lia).
      fold x1 x2. lia.
    + rewrite !lookup_total_insert_ne by lia.
      destruct (decide (ix < m)), (decide (ix < m + 1)); done || lia.
Qed.

(** X12. crush returns on every state whose array has n entries
    (0 < n < 2^62), whatever the entries; it leaves the registers and the
    length alone and orders each pair of mirrored positions: for i < n/2,
    s[i] is afterwards the smaller and s[n-1-i] the larger of the two
    values that were at i and n-1-i. *)
Theorem crush_orders_pairs (st : state) (arr : list Z) :
  0 < st.(n) < 2 ^ 62 → Z.of_nat (length arr) = st.(n) →
  ∃ arr',
    crush (st, arr) = Ok tt (st, arr') ∧ length arr' = length arr ∧
    ∀ ix, 0 ≤ ix < st.(n) `div` 2 →
      arr' !!! Z.to_nat ix = Z.min (arr !!! Z.to_nat ix) (arr !!! Z.to_nat (st.(n) - 1 - ix)) ∧
      arr' !!! Z.to_nat (st.(n) - 1 - ix)
        = Z.max (arr !!! Z.to_nat ix) (arr !!! Z.to_nat (st.(n) - 1 - ix)).
Proof.
  intros Hn Hlen. unfold crush.
  assert (Hhi : evals (s_n /ᵢ ret 2) (st, arr) (st.(n) `div` 2)).
  { assert (evals (s_n /ᵢ ret 2) (st, arr) (wrap (Z.quot st.(n) 2))) as H
      by (unfold s_n; ev; done).
    pose proof (Z.mul_div_le st.(n) 2 ltac:(lia)).
    pose proof (Z.div_pos st.(n) 2 ltac:(lia) ltac:(lia)).
    rewrite quot_nonneg, wrap_small in H by lia. exact H. }
  rewrite (bind_evals _ _ _ _ Hhi).
  pose proof (Z.div_pos st.(n) 2 ltac:(lia) ltac:(lia)) as Hpos.
  match goal with |- context [for_to ?hi ?body _] =>
    assert (H : triple (λ σ, σ.1 = st ∧ crushed_to 0 st.(n) arr σ.2) (for_to hi body)
                  (λ _ σ, σ.1 = st ∧ crushed_to hi st.(n) arr σ.2) (λ _, False))
  end.
  { apply (triple_for_to _ _ (λ m σ, σ.1 = st ∧ crushed_to m st.(n) arr σ.2)); [lia|].
    intros m Hm [st1 arr1] [Hst Hc]. simpl in Hst, Hc. subst st1.
    destruct (crush_step st arr arr1 m Hn Hlen Hm Hc) as (arr2 & -> & Hc2). done. }
  assert (Hpre : crushed_to 0 st.(n) arr arr).
  { split; [done|]. intros ix Hix. destruct (decide (ix < 0)); [lia|done]. }
  specialize (H (st, arr) (conj eq_refl Hpre)).
  destruct (for_to _ _ (st, arr)) as [[] [st' arr']|]; [|done].
  destruct H as [Hst [Hl Hpairs]]. simpl in Hst. subst st'.
  exists arr'. split_and!; [done..|]. intros ix Hix. specialize (Hpairs ix Hix).
  destruct (decide _); [done|lia].
Qed.

Lemma crush_orders_pairs_witness :
  let st := mkState 4 None 0 0 0 0 1 0 in
  let arr := [3; 0; 2; 1] in
  ∃ arr',
    crush (st, arr) = Ok tt (st, arr') ∧ length arr' = 4%nat ∧
    ∀ ix, 0 ≤ ix < 4 `div` 2 →
      arr' !!! Z.to_nat ix = Z.min (arr !!! Z.to_nat ix) (arr !!! Z.to_nat (4 - 1 - ix)) ∧
      arr' !!! Z.to_nat (4 - 1 - ix)
        = Z.max (arr !!! Z.to_nat ix) (arr !!! Z.to_nat (4 - 1 - ix)).
Proof.
  intros st arr. apply (crush_orders_pairs st arr).
  - simpl. lia.
  - reflexivity.
Defined.

(** ** squeeze and drip *)

Lemma when_pending_skip (σ : state * list Z) :
  σ.1.(a) = 0 → when (s_a >ᵢ ret 0) shuffle σ = Ok tt σ.
Proof.
  intros Ha. unfold when.
  rewrite (bind_evals _ _ _ (σ.1.(a) >? 0)) by (unfold s_a; ev).
  by rewrite Ha.
Qed.

Lemma mapM_drip_flushed sl (l : list Z) :
  triple (λ σ, good sl σ ∧ σ.1.(a) = 0) (mapM (λ _, drip) l)
    (λ vs σ, length vs = length l ∧ Forall (λ v, 0 ≤ v < 256) vs ∧
             good sl σ ∧ σ.1.(a) = 0)
    (λ _, False).
Proof.
  apply triple_mapM. intros _ _.
  eapply triple_conseq; [apply drip_good|by intros ? []|by intros ? ? (? & ? & ?)|done].
Qed.

(** X13. squeeze on a state of size 256 in order can be done in two steps:
    filling out1 ++ out2 is filling out1 and then out2 (the second squeeze
    finds a = 0 and shuffles no more). squeeze returns one value of
    [0, 256) per element of out and leaves a state in order with a = 0. *)
Theorem squeeze_in_two sl (σ : state * list Z) (out1 out2 : list Z) :
  good sl σ →
  squeeze (out1 ++ out2) σ =
    (v1 <- squeeze out1 ;; v2 <- squeeze out2 ;; ret (v1 ++ v2)) σ ∧
  ∃ vs σ', squeeze (out1 ++ out2) σ = Ok vs σ' ∧
           length vs = (length out1 + length out2)%nat ∧
           Forall (λ v, 0 ≤ v < 256) vs ∧ good sl σ' ∧ σ'.1.(a) = 0.
Proof.
  intros Hσ. split.
  - unfold squeeze. rewrite bind_assoc.
    eapply bind_ext_triple; [apply when_pending_good| |exact Hσ].
    intros ? σ1 Hσ1. cbv beta. rewrite mapM_app.
    eapply bind_ext_triple; [apply (mapM_drip_flushed sl)| |exact Hσ1].
    intros v1 σ2 (_ & _ & _ & Ha). cbv beta.
    by rewrite bind_assoc, (bind_ok _ _ _ _ _ (when_pending_skip σ2 Ha)).
  - unfold squeeze.
    pose proof (when_pending_good sl σ Hσ) as H1.
    destruct (when _ _ σ) as [[] σ1|] eqn:Hw; [|done].
    pose proof (mapM_drip_flushed sl (out1 ++ out2) σ1 H1) as H2.
    rewrite (bind_ok _ _ _ _ _ Hw).
    destruct (mapM _ _ σ1) as [vs σ'|]; [|done].
    exists vs, σ'. rewrite length_app in H2. tauto.
Qed.

Lemma squeeze_in_two_witness :
  let σ := (init_state 0, seqZ 0 256) in
  squeeze ([0] ++ [0; 0]) σ =
    (v1 <- squeeze [0] ;; v2 <- squeeze [0; 0] ;; ret (v1 ++ v2)) σ ∧
  ∃ vs σ', squeeze ([0] ++ [0; 0]) σ = Ok vs σ' ∧
           length vs = (1 + 2)%nat ∧
           Forall (λ v, 0 ≤ v < 256) vs ∧ good (Some 0%nat) σ' ∧ σ'.1.(a) = 0.
Proof.
  intros σ. apply (squeeze_in_two (Some 0%nat) σ [0] [0; 0]). in_order.
Defined.

(** ** absorbing one byte *)

Lemma when_half_skip sl (σ : state * list Z) :
  good sl σ → σ.1.(a) ≠ 128 → when (s_a ==ᵢ s_n /ᵢ ret 2) shuffle σ = Ok tt σ.
Proof.
  intros Hσ Ha. unfold when.
  rewrite (bind_evals _ _ _ (σ.1.(a) =? 128)).
  - by destruct (Z.eqb_spec σ.1.(a) 128).
  - apply evals_lift2; [unfold s_a; ev|by eapply evals_half].
Qed.

Lemma absorbNibble_exact sl (st : state) (arr : list Z) (x : Z) :
  good sl (st, arr) → st.(a) < 128 → 0 ≤ x < 128 →
  absorbNibble x (st, arr) =
    Ok tt (with_a (st.(a) + 1) st, swap_at st.(a) (128 + x) arr).
Proof.
  intros Hσ Ha Hx. unfold absorbNibble.
  rewrite (bind_ok _ _ _ _ _ (when_half_skip sl _ Hσ ltac:(simpl; lia))).
  rewrite (bind_evals _ _ _ _ (evals_nibble_slot sl _ x Hσ)).
  unfold nibble_slot. rewrite int_add_small, rem_256, Z.mod_small by lia.
  destruct Hσ as [Hs Hn Hp Ha0 Hi Hj Hk Hw Hz]. simpl in *.
  pose proof (perm_length _ Hp) as Hlen.
  unfold s_a, s_n, set_a. step. step. step; [|rewrite length_insert; lia]. step.
  by rewrite int_add_small, Hn, rem_256, Z.mod_small by lia.
Qed.

(** X14. absorbValue of a byte b on a state in order with a <= 126 shuffles
    nothing: it swaps s[a] with s[128 + b mod 16], then s[a+1] with
    s[128 + b div 16], and adds 2 to a. *)
Theorem absorbValue_byte sl (st : state) (arr : list Z) (b : Z) :
  good sl (st, arr) → st.(a) ≤ 126 → 0 ≤ b < 256 →
  absorbValue b (st, arr) =
    Ok tt (with_a (st.(a) + 2) st,
           swap_at (st.(a) + 1) (128 + b `div` 16)
             (swap_at st.(a) (128 + b `mod` 16) arr)).
Proof.
  intros Hσ Ha Hb. unfold absorbValue.
  rewrite (bind_evals _ _ _ _ (evals_sixteenth sl _ Hσ)).
  rewrite (bind_evals (ret b %ᵢ ret 16) _ _ (Z.rem b 16)) by ev.
  rewrite Z.rem_mod_nonneg by lia.
  pose proof (Z.mod_pos_bound b 16 ltac:(lia)) as Hlo.
  assert (0 ≤ b `div` 16 < 16) as Hhi.
  { split; [apply Z.div_pos; lia|apply Z.div_lt_upper_bound; lia]. }
  pose proof (absorbNibble_good sl (b `mod` 16) _ Hσ) as Hg1.
  assert (He := absorbNibble_exact sl st arr (b `mod` 16) Hσ ltac:(lia) ltac:(lia)).
  rewrite He in Hg1. rewrite (bind_ok _ _ _ _ _ He).
  rewrite (bind_evals (ret b /ᵢ ret 16) _ _ (wrap (Z.quot b 16))) by ev.
  rewrite quot_nonneg, wrap_small by lia.
  rewrite (absorbNibble_exact sl) by (done || simpl; lia).
  simpl. unfold with_a. simpl. do 3 f_equal. lia.
Qed.

Lemma absorbValue_byte_witness :
  absorbValue 107 (init_state 0, seqZ 0 256) =
    Ok tt (with_a 2 (init_state 0),
           swap_at 1 (128 + 6) (swap_at 0 (128 + 11) (seqZ 0 256))).
Proof.
  apply (absorbValue_byte (Some 0%nat) (init_state 0) (seqZ 0 256) 107).
  - in_order.
  - simpl. lia.
  - lia.
Defined.

(** ** the registers across whip and shuffle *)

Lemma triple_conj {Σ A} (m : M Σ A) (P1 P2 : Σ → Prop) (Q1 Q2 : A → Σ → Prop)
    (R1 R2 : Σ → Prop) :
  triple P1 m Q1 R1 → triple P2 m Q2 R2 →
  triple (λ σ, P1 σ ∧ P2 σ) m (λ x σ, Q1 x σ ∧ Q2 x σ) (λ σ, R1 σ ∧ R2 σ).
Proof.
  intros H1 H2 σ [Hp1 Hp2]. specialize (H1 σ Hp1). specialize (H2 σ Hp2).
  by destruct (m σ).
Qed.

Lemma stable_wz_update w0 z0 : stable (has_wz w0 z0) update.
Proof. stb. Qed.
Lemma stable_wz_crush w0 z0 : stable (has_wz w0 z0) crush.
Proof. stb. Qed.

Lemma whip_registers sl (w0 z0 : Z) :
  triple (λ σ, good sl σ ∧ has_wz w0 z0 σ.1) whip
    (λ _ σ, good sl σ ∧ has_wz ((w0 + 2) `mod` 256) z0 σ.1) (λ _, False).
Proof.
  unfold whip. eapply triple_bind with (Q' := λ _ σ, good sl σ ∧ has_wz w0 z0 σ.1).
  { apply triple_evals. intros σ Hσ. eexists. split; [unfold s_n; ev|done]. }
  intros r. eapply triple_bind with (Q' := λ _ σ, good sl σ ∧ has_wz w0 z0 σ.1).
  { apply triple_forM. intros _ _.
    eapply triple_conseq;
      [apply (triple_conj _ _ _ _ _ _ _ (update_good sl) (stable_wz_update w0 z0))
      |done|done|by intros ? []]. }
  intros ? [st arr] [[Hs Hn Hp Ha Hi Hj Hk Hw Hz] [Hw0 Hz0]]. simpl in *.
  unfold set_w, s_w, s_n. step.
  rewrite int_add_small, Hn, rem_256 by lia.
  split; [constructor; simpl; auto using mod_256_range|].
  split; simpl; [by rewrite Hw0|done].
Qed.

Lemma crush_registers sl (w0 z0 : Z) :
  triple (λ σ, good sl σ ∧ has_wz w0 z0 σ.1) crush
    (λ _ σ, good sl σ ∧ has_wz w0 z0 σ.1) (λ _, False).
Proof.
  eapply triple_conseq;
    [apply (triple_conj _ _ _ _ _ _ _ (crush_good sl) (stable_wz_crush w0 z0))
    |done|done|by intros ? []].
Qed.

(** X15. shuffle returns on every state of size 256 in order. Afterwards a is
    0, w has advanced by 6 modulo 256, z, n and the slice header are as
    before, and the array holds the values it held, rearranged. *)
Theorem shuffle_registers sl (st : state) (arr : list Z) :
  good sl (st, arr) →
  ∃ st' arr',
    shuffle (st, arr) = Ok tt (st', arr') ∧
    st'.(a) = 0 ∧ st'.(w) = (st.(w) + 6) `mod` 256 ∧ st'.(z) = st.(z) ∧
    st'.(n) = 256 ∧ st'.(s) = st.(s) ∧ arr' ≡ₚ arr.
Proof.
  intros Hσ.
  assert (triple (λ σ, good sl σ ∧ has_wz st.(w) st.(z) σ.1) shuffle
            (λ _ σ, (good sl σ ∧ has_wz ((st.(w) + 6) `mod` 256) st.(z) σ.1) ∧
                    σ.1.(a) = 0) (λ _, False)) as H.
  { unfold shuffle.
    eapply triple_bind; [apply whip_registers|]. intros ?.
    eapply triple_bind; [apply crush_registers|]. intros ?.
    eapply triple_bind; [apply whip_registers|]. intros ?.
    eapply triple_bind; [apply crush_registers|]. intros ?.
    eapply triple_bind; [apply whip_registers|]. intros ?.
    intros [st1 arr1] [[Hs Hn Hp Ha Hi Hj Hk Hw Hz] [Hw0 Hz0]]. simpl in *.
    split; [|done]. split; [by constructor|]. split; simpl; [|done].
    rewrite Hw0, Zplus_mod_idemp_l, <- Z.add_assoc, Zplus_mod_idemp_l.
    by replace (st.(w) + 2 + (2 + 2)) with (st.(w) + 6) by lia. }
  specialize (H (st, arr) (conj Hσ (conj eq_refl eq_refl))).
  destruct (shuffle (st, arr)) as [[] [st' arr']|]; [|done].
  destruct H as [[Hg [Hw Hz]] Ha]. simpl in *.
  exists st', arr'. split_and!; try done.
  - apply Hg.
  - pose proof (good_s _ _ Hg) as H1. pose proof (good_s _ _ Hσ) as H2.
    simpl in *. congruence.
  - pose proof (good_perm _ _ Hg) as H1. pose proof (good_perm _ _ Hσ) as H2.
    simpl in *. by rewrite H1, H2.
Qed.

Lemma shuffle_registers_witness :
  let st := with_a 5 (init_state 0) in
  ∃ st' arr',
    shuffle (st, seqZ 0 256) = Ok tt (st', arr') ∧
    st'.(a) = 0 ∧ st'.(w) = 7 ∧ st'.(z) = 0 ∧
    st'.(n) = 256 ∧ st'.(s) = Some 0%nat ∧ arr' ≡ₚ seqZ 0 256.
Proof.
  intros st. apply (shuffle_registers (Some 0%nat) st (seqZ 0 256)). in_order.
Defined.

(** X16. absorbStop on a state of size 256 in order. When a is not 128 it
    sets a to (a+1) mod 256 and touches neither the other registers nor
    the array; when a is 128 it is shuffle followed by a = 1. *)
Theorem absorbStop_exact sl (st : state) (arr : list Z) :
  good sl (st, arr) →
  (st.(a) ≠ 128 →
   absorbStop (st, arr) = Ok tt (with_a ((st.(a) + 1) `mod` 256) st, arr)) ∧
  (st.(a) = 128 →
   ∃ σ', shuffle (st, arr) = Ok tt σ' ∧ absorbStop (st, arr) = Ok tt (with_a 1 σ'.1, σ'.2)).
Proof.
  intros Hσ. split.
  - intros Ha. unfold absorbStop.
    rewrite (bind_ok _ _ _ _ _ (when_half_skip sl _ Hσ Ha)).
    destruct Hσ as [Hs Hn Hp Ha0 Hi Hj Hk Hw Hz]. simpl in *.
    unfold set_a, s_a, s_n. step.
    by rewrite int_add_small, Hn, rem_256 by lia.
  - intros Ha. pose proof (shuffle_good sl _ Hσ) as H.
    destruct (shuffle (st, arr)) as [[] [st1 arr1]|] eqn:Hsh; [|done].
    exists (st1, arr1). split; [done|]. unfold absorbStop, when.
    rewrite (bind_assoc _ _ _ _).
    rewrite (bind_evals _ _ _ (st.(a) =? 128));
      [|apply evals_lift2; [unfold s_a; ev|by eapply evals_half]].
    rewrite Ha. simpl (128 =? 128). cbv iota.
    rewrite (bind_ok _ _ _ _ _ Hsh).
    destruct H as [[Hs Hn Hp Ha0 Hi Hj Hk Hw Hz] Hz0]. simpl in *.
    unfold set_a, s_a, s_n. step. rewrite Hz0, Hn. done.
Qed.

Lemma absorbStop_exact_witness :
  let st := with_a 128 (init_state 0) in
  (128 ≠ 128 →
   absorbStop (st, seqZ 0 256) = Ok tt (with_a ((128 + 1) `mod` 256) st, seqZ 0 256)) ∧
  (128 = 128 →
   ∃ σ', shuffle (st, seqZ 0 256) = Ok tt σ' ∧
         absorbStop (st, seqZ 0 256) = Ok tt (with_a 1 σ'.1, σ'.2)).
Proof.
  intros st. apply (absorbStop_exact (Some 0%nat) st (seqZ 0 256)). in_order.
Defined.
